(** * gearnode/ar: sequential reader and writer of Unix ar archives

    A shallow embedding of [reader.go] and [writer.go].  Go byte slices are
    lists of [ascii], Go strings are [string], [int64] values are [Z] with
    the wrap-around written out where the code can reach it, and the
    [io.Reader] / [io.Writer] interfaces are type classes with an in-memory
    instance each. *)

From Stdlib Require Import ZArith String Ascii List Bool Lia.
Import ListNotations.

Local Open Scope Z_scope.

(** ** Go builtins *)

Definition byte := ascii.
Definition bytes := list byte.

Definition space : byte := " "%char.
Definition newline : byte := "010"%char.
Definition backtick : byte := "`"%char.
Definition zero_byte : byte := "000"%char.

Definition len {A} (l : list A) : Z := Z.of_nat (length l).
Definition slen (s : string) : Z := Z.of_nat (String.length s).

(** [b[lo:hi]] for in-range bounds. *)
Definition slice (b : bytes) (lo hi : nat) : bytes :=
  firstn (hi - lo) (skipn lo b).

(** [b[i]] for an in-range index. *)
Definition index (b : bytes) (i : Z) : byte := nth (Z.to_nat i) b zero_byte.

(** [copy(dst, src)]: the first [min(len dst, len src)] bytes of [dst] are
    overwritten; the result is the new content of [dst]. *)
Definition copy (dst src : bytes) : bytes :=
  firstn (length dst) src ++ skipn (length src) dst.

(** The effect on [buf] of running [f] on the sub-slice [buf[lo:hi]], which
    shares its storage with [buf]. *)
Definition on_slice (buf : bytes) (lo hi : nat) (f : bytes -> bytes) : bytes :=
  firstn lo buf ++ f (slice buf lo hi) ++ skipn hi buf.

Definition make (n : nat) : bytes := repeat zero_byte n.

(** [[]byte(s)] and [string(b)]. *)
Definition bytes_of_string : string -> bytes := list_ascii_of_string.
Definition string_of_bytes : bytes -> string := string_of_list_ascii.

Definition min_int64 : Z := - 2 ^ 63.
Definition max_int64 : Z := 2 ^ 63 - 1.
Definition max_uint64 : Z := 2 ^ 64 - 1.

Definition is_int64 (z : Z) : Prop := min_int64 <= z <= max_int64.

(** Two's complement wrap-around of [int64] arithmetic. *)
Definition wrap64 (z : Z) : Z := (z + 2 ^ 63) mod 2 ^ 64 - 2 ^ 63.

(** ** Errors *)

Inductive error : Type :=
| EOF                                  (* io.EOF *)
| ErrUnexpectedEOF                     (* io.ErrUnexpectedEOF *)
| ErrSyntax                            (* strconv.ErrSyntax *)
| ErrRange                             (* strconv.ErrRange *)
| ErrWriteTooLong
| Errorf (msg : string)                (* fmt.Errorf without %w *)
| Wrapf (msg : string) (wrapped : error).   (* fmt.Errorf with %w *)

Inductive result (A : Type) : Type :=
| Ok (a : A)
| Err (e : error).
Arguments Ok {A} a.
Arguments Err {A} e.

(** ** strconv *)

Module strconv.

(** The digit alphabet of [strconv.FormatInt]. *)
Definition digit_char (d : Z) : byte :=
  if d <? 10 then ascii_of_nat (Z.to_nat (48 + d))
  else ascii_of_nat (Z.to_nat (97 + (d - 10))).

(** [formatBits]: digits are produced from the least significant one. *)
Fixpoint formatBits (fuel : nat) (u base : Z) (acc : string) : string :=
  match fuel with
  | O => acc
  | S fuel' =>
      if base <=? u
      then formatBits fuel' (u / base) base (String (digit_char (u mod base)) acc)
      else String (digit_char u) acc
  end.

(** [strconv.FormatInt(i, base)] for an [int64] and [2 <= base <= 36]; at
    most 64 digits are needed. *)
Definition FormatInt (i base : Z) : string :=
  let s := formatBits 64 (Z.abs i) base EmptyString in
  if i <? 0 then String "-"%char s else s.

(** The value of a digit in [strconv.ParseUint]. *)
Definition digit_val (c : byte) : option Z :=
  let n := Z.of_nat (nat_of_ascii c) in
  if (48 <=? n) && (n <=? 57) then Some (n - 48)
  else if (97 <=? n) && (n <=? 122) then Some (n - 97 + 10)
  else if (65 <=? n) && (n <=? 90) then Some (n - 65 + 10)
  else None.

(** The loop of [strconv.ParseUint(s, base, 64)] for an explicit base. *)
Fixpoint ParseUint_loop (cs : bytes) (base n : Z) : result Z :=
  match cs with
  | [] => Ok n
  | c :: cs' =>
      match digit_val c with
      | None => Err ErrSyntax
      | Some d =>
          if base <=? d then Err ErrSyntax
          else if max_uint64 / base + 1 <=? n then Err ErrRange
          else
            let n1 := n * base + d in
            if max_uint64 <? n1 then Err ErrRange
            else ParseUint_loop cs' base n1
      end
  end.

Definition ParseUint (s : string) (base : Z) : result Z :=
  match s with
  | EmptyString => Err ErrSyntax
  | _ => ParseUint_loop (bytes_of_string s) base 0
  end.

(** [strconv.ParseInt(s, base, 64)]; a value is returned only together
    with a nil error. *)
Definition ParseInt (s : string) (base : Z) : result Z :=
  match s with
  | EmptyString => Err ErrSyntax
  | String c rest =>
      let '(neg, body) :=
        if Ascii.eqb c "+"%char then (false, rest)
        else if Ascii.eqb c "-"%char then (true, rest)
        else (false, s) in
      match ParseUint body base with
      | Err e => Err e
      | Ok un =>
          if negb neg && (2 ^ 63 <=? un) then Err ErrRange
          else if neg && (2 ^ 63 <? un) then Err ErrRange
          else Ok (if neg then - un else un)
      end
  end.

End strconv.

(** ** io *)

(** [io.Writer]: [Write(p)] returns the new sink, the count and the error. *)
Class IoWriter (W : Type) : Type :=
  { io_Write : W -> bytes -> W * (Z * option error) }.

(** [io.Reader], together with the two helpers of package [io] the archive
    reader drives it with.  [io_Read s k] is [Read] on a buffer of [k] bytes
    and yields the bytes stored at its front; [io_ReadFull s k] is
    [io.ReadFull] on a buffer of [k] bytes; [io_CopyN_Discard s n] is
    [io.CopyN(ioutil.Discard, s, n)]. *)
Class IoReader (Src : Type) : Type :=
  { io_Read : Src -> nat -> Src * (bytes * option error);
    io_ReadFull : Src -> nat -> Src * (bytes * option error);
    io_CopyN_Discard : Src -> Z -> Src * (Z * option error) }.

(** The contract of [io.Reader.Read]: [0 <= n <= len(p)]. *)
Class IoReaderContract (Src : Type) `{IoReader Src} : Prop :=
  io_Read_le : forall (s : Src) (k : nat),
      (length (fst (snd (io_Read s k))) <= k)%nat.

(** An in-memory sink that never fails, as [bytes.Buffer]; the calls are
    kept apart, oldest first. *)
Definition MemSink := list bytes.

#[export] Instance MemSink_Writer : IoWriter MemSink :=
  { io_Write := fun w p => (w ++ [p], (len p, None)) }.

(** The byte stream a [MemSink] holds. *)
Definition contents (w : MemSink) : bytes := concat w.

(** An in-memory source, as [bytes.Reader]: the bytes not yet consumed. *)
Definition MemSource := bytes.

Definition mem_Read (s : MemSource) (k : nat) : MemSource * (bytes * option error) :=
  match s with
  | [] => (s, ([], Some EOF))
  | _ => (skipn k s, (firstn k s, None))
  end.

Definition mem_ReadFull (s : MemSource) (k : nat) : MemSource * (bytes * option error) :=
  if (k <=? length s)%nat then (skipn k s, (firstn k s, None))
  else match s with
       | [] => (s, ([], Some EOF))
       | _ => ([], (s, Some ErrUnexpectedEOF))
       end.

Definition mem_CopyN_Discard (s : MemSource) (n : Z) : MemSource * (Z * option error) :=
  if n <=? 0 then (s, (0, None))
  else if n <=? len s then (skipn (Z.to_nat n) s, (n, None))
  else ([], (len s, Some EOF)).

#[export] Instance MemSource_Reader : IoReader MemSource :=
  { io_Read := mem_Read;
    io_ReadFull := mem_ReadFull;
    io_CopyN_Discard := mem_CopyN_Discard }.

(** ** time *)

Module time.

(** Modelled from the spec: the declaration of [Header] is not among the
    sources; its [Date] is a timestamp of seconds resolution, stored as
    seconds since the epoch. *)
Record Time : Type := { sec : Z }.

(** [time.Unix(sec, 0)]. *)
Definition Unix (s nsec : Z) : Time := {| sec := s |}.

(** [t.Unix()]. *)
Definition Time_Unix (t : Time) : Z := sec t.

End time.

(** ** Package ar: shared declarations *)

(** Modelled from the spec: the file declaring [Header], [MagicString] and
    [HeaderByteSize] is not among the sources.  The spec gives the magic as
    the 8 bytes [!<arch>\n], the header record as 60 bytes, and the fields of
    [Header] as below; [writer.go] and [reader.go] use the integer fields at
    type [int64]. *)
Definition MagicString : string := String.append "!<arch>" (String newline EmptyString).

Definition HeaderByteSize : nat := 60.

Record Header : Type :=
  { Name : string;
    Date : time.Time;
    Uid : Z;
    Gid : Z;
    Mode : Z;
    Size : Z }.

(** ** writer.go *)

Record Writer (W : Type) : Type := { w_io : W; w_n : Z }.
Arguments w_io {W} _.
Arguments w_n {W} _.

Definition NewWriter {W} (w : W) : Writer W := {| w_io := w; w_n := 0 |}.

(** The loop [for len(s) < len(b) { s = s + " " }]; it runs less than
    [len(b) + 1] times. *)
Fixpoint pad_loop (fuel : nat) (s : string) (lenb : nat) : string :=
  match fuel with
  | O => s
  | S fuel' =>
      if (String.length s <? lenb)%nat
      then pad_loop fuel' (String.append s (String space EmptyString)) lenb
      else s
  end.

Definition pad (s : string) (lenb : nat) : string := pad_loop lenb s lenb.

Definition writeString (b : bytes) (s : string) : bytes :=
  copy b (bytes_of_string (pad s (length b))).

Definition writeInt (b : bytes) (i : Z) : bytes :=
  let s := strconv.FormatInt i 10 in
  copy b (bytes_of_string (pad s (length b))).

Definition writeOctal (b : bytes) (i : Z) : bytes :=
  let s := strconv.FormatInt i 8 in
  copy b (bytes_of_string (pad s (length b))).

(** The buffer [WriteHeader] fills before it hands it to the stream. *)
Definition header_buf (header : Header) : bytes :=
  let buf := make HeaderByteSize in
  let buf := on_slice buf 0 16 (fun b => writeString b (Name header)) in
  let buf := on_slice buf 16 28 (fun b => writeInt b (time.Time_Unix (Date header))) in
  let buf := on_slice buf 28 34 (fun b => writeInt b (Uid header)) in
  let buf := on_slice buf 34 40 (fun b => writeInt b (Gid header)) in
  let buf := on_slice buf 40 48 (fun b => writeOctal b (Mode header)) in
  let buf := on_slice buf 48 58 (fun b => writeInt b (Size header)) in
  on_slice buf 58 60
    (fun b => writeString b (String backtick (String newline EmptyString))).

Section WriterOps.

Context {W : Type} `{IoWriter W}.

Definition WriteMagicBytes (w : Writer W) : Writer W * option error :=
  let '(io', (_, err)) := io_Write (w_io w) (bytes_of_string MagicString) in
  ({| w_io := io'; w_n := w_n w |}, err).

Definition WriteHeader (w : Writer W) (header : Header) : Writer W * option error :=
  let buf := header_buf header in
  let '(io', (_, err)) := io_Write (w_io w) buf in
  match err with
  | Some e => ({| w_io := io'; w_n := w_n w |}, Some e)
  | None => ({| w_io := io'; w_n := Size header |}, None)
  end.

Definition Write (w : Writer W) (b : bytes) : Writer W * (Z * option error) :=
  if w_n w <? len b then (w, (0, Some ErrWriteTooLong))
  else
    let b' := if Z.rem (len b) 2 =? 1 then b ++ [newline] else b in
    let '(io', (n, err)) := io_Write (w_io w) b' in
    ({| w_io := io'; w_n := w_n w |}, (n, err)).

End WriterOps.

(** ** reader.go *)

Record Reader (Src : Type) : Type := { r_io : Src; r_n : Z; r_p : Z }.
Arguments r_io {Src} _.
Arguments r_n {Src} _.
Arguments r_p {Src} _.

(** The loop [for i > 0 && b[i] == ' ' { i-- }]; it runs less than [len(b)]
    times. *)
Fixpoint trim_loop (fuel : nat) (b : bytes) (i : Z) : Z :=
  match fuel with
  | O => i
  | S fuel' =>
      if (0 <? i) && Ascii.eqb (index b i) space
      then trim_loop fuel' b (i - 1)
      else i
  end.

Definition trim_index (b : bytes) : Z := trim_loop (length b) b (len b - 1).

Definition readString (b : bytes) : string :=
  let i := trim_index b in
  string_of_bytes (slice b 0 (Z.to_nat (i + 1))).

Definition readInt (b : bytes) : result Z :=
  let i := trim_index b in
  strconv.ParseInt (string_of_bytes (slice b 0 (Z.to_nat (i + 1)))) 10.

Definition readOctal (b : bytes) : result Z :=
  let i := trim_index b in
  strconv.ParseInt (string_of_bytes (slice b 0 (Z.to_nat (i + 1)))) 8.

(** What [Next] does with the 60 bytes of a header record. *)
Definition parse_header (buf : bytes) : result Header :=
  if negb (Ascii.eqb (index buf 58) backtick) && negb (Ascii.eqb (index buf 59) newline)
  then Err (Errorf "invalid header ending bytes")
  else
    match readInt (slice buf 16 28) with
    | Err e => Err (Wrapf "cannot parse file timestamp" e)
    | Ok date =>
    match readInt (slice buf 28 34) with
    | Err e => Err (Wrapf "cannot parse file owner id" e)
    | Ok uid =>
    match readInt (slice buf 34 40) with
    | Err e => Err (Wrapf "cannot parse file group id" e)
    | Ok gid =>
    match readOctal (slice buf 40 48) with
    | Err e => Err (Wrapf "cannot parse file mode" e)
    | Ok mode =>
    match readInt (slice buf 48 58) with
    | Err e => Err (Wrapf "cannot parse file size" e)
    | Ok fsize =>
        Ok {| Name := readString (slice buf 0 16);
              Date := time.Unix date 0;
              Uid := uid;
              Gid := gid;
              Mode := mode;
              Size := fsize |}
    end end end end end.

Section ReaderOps.

Context {Src : Type} `{IoReader Src}.

Definition NewReader (r : Src) : Src * result (Reader Src) :=
  let '(r', (mb, err)) := io_ReadFull r 8 in
  match err with
  | Some e => (r', Err (Wrapf "cannot read magic byte" e))
  | None =>
      if list_eq_dec ascii_dec mb (bytes_of_string MagicString)
      then (r', Ok {| r_io := r'; r_n := 0; r_p := 0 |})
      else (r', Err (Errorf "invalid magic bytes"))
  end.

Definition skipUnread (r : Reader Src) : Reader Src * option error :=
  let s := wrap64 (r_n r + r_p r) in
  let '(io', (_, err)) := io_CopyN_Discard (r_io r) s in
  match err with
  | Some e => ({| r_io := io'; r_n := r_n r; r_p := r_p r |}, Some e)
  | None => ({| r_io := io'; r_n := 0; r_p := 0 |}, None)
  end.

Definition Next (r : Reader Src) : Reader Src * result Header :=
  let '(r1, err) := skipUnread r in
  match err with
  | Some e => (r1, Err e)
  | None =>
      let '(io', (buf, err)) := io_ReadFull (r_io r1) HeaderByteSize in
      let r2 := {| r_io := io'; r_n := r_n r1; r_p := r_p r1 |} in
      match err with
      | Some e => (r2, Err e)
      | None =>
          if negb (length buf =? HeaderByteSize)%nat
          then (r2, Err (Errorf "invalid file header size"))
          else
            match parse_header buf with
            | Err e => (r2, Err e)
            | Ok header =>
                ({| r_io := io'; r_n := Size header; r_p := Z.rem (Size header) 2 |},
                 Ok header)
            end
      end
  end.

(** [Read] on a buffer of [k] bytes: the bytes stored at the front of the
    buffer and the error.  [None] is the run-time panic of [b[0:r.n]] for
    a negative [r.n]. *)
Definition Read (r : Reader Src) (k : nat) : option (Reader Src * (bytes * option error)) :=
  if r_n r =? 0 then Some (r, ([], Some EOF))
  else
    let k' := if r_n r <? Z.of_nat k then r_n r else Z.of_nat k in
    if k' <? 0 then None
    else
      let '(io', (data, err)) := io_Read (r_io r) (Z.to_nat k') in
      Some ({| r_io := io'; r_n := wrap64 (r_n r - len data); r_p := r_p r |},
            (data, err)).

End ReaderOps.

(** ** Clients: writing and reading a whole archive *)

(** How a run of the reading client ends: with a value, with an error, with
    a run-time panic, or with its fuel used up. *)
Inductive outcome (A : Type) : Type :=
| Finished (a : A)
| Failed (e : error)
| Panicked
| OutOfFuel.
Arguments Finished {A} a.
Arguments Failed {A} e.
Arguments Panicked {A}.
Arguments OutOfFuel {A}.

Definition entry : Type := Header * bytes.

Section Clients.

Context {W : Type} `{IoWriter W} {Src : Type} `{IoReader Src}.

(** Per entry: [WriteHeader], then one [Write] of the whole payload. *)
Fixpoint write_entries (w : Writer W) (es : list entry) : Writer W * option error :=
  match es with
  | [] => (w, None)
  | (h, payload) :: es' =>
      let '(w1, err) := WriteHeader w h in
      match err with
      | Some e => (w1, Some e)
      | None =>
          let '(w2, (_, err)) := Write w1 payload in
          match err with
          | Some e => (w2, Some e)
          | None => write_entries w2 es'
          end
      end
  end.

(** [NewWriter], [WriteMagicBytes], then the entries. *)
Definition write_archive (sink : W) (es : list entry) : Writer W * option error :=
  let '(w, err) := WriteMagicBytes (NewWriter sink) in
  match err with
  | Some e => (w, Some e)
  | None => write_entries w es
  end.

(** [Read] into a buffer of [k] bytes until it reports [io.EOF], keeping
    what each call delivered. *)
Fixpoint read_payload (fuel : nat) (r : Reader Src) (k : nat) (acc : bytes)
  : Reader Src * outcome bytes :=
  match fuel with
  | O => (r, OutOfFuel)
  | S fuel' =>
      match Read r k with
      | None => (r, Panicked)
      | Some (r', (data, err)) =>
          match err with
          | Some EOF => (r', Finished (acc ++ data))
          | Some e => (r', Failed e)
          | None => read_payload fuel' r' k (acc ++ data)
          end
      end
  end.

(** Per entry: [Next], then [Read] to exhaustion; [io.EOF] from [Next]
    ends the archive. *)
Fixpoint read_entries (fuel : nat) (r : Reader Src) (k : nat) : outcome (list entry) :=
  match fuel with
  | O => OutOfFuel
  | S fuel' =>
      let '(r1, res) := Next r in
      match res with
      | Err EOF => Finished []
      | Err e => Failed e
      | Ok h =>
          match read_payload (S (Z.to_nat (Size h))) r1 k [] with
          | (r2, Finished payload) =>
              match read_entries fuel' r2 k with
              | Finished es => Finished ((h, payload) :: es)
              | o => o
              end
          | (_, Failed e) => Failed e
          | (_, Panicked) => Panicked
          | (_, OutOfFuel) => OutOfFuel
          end
      end
  end.

(** [NewReader], then the entries. *)
Definition read_archive (fuel : nat) (src : Src) (k : nat) : outcome (list entry) :=
  match snd (NewReader src) with
  | Err e => Failed e
  | Ok r => read_entries fuel r k
  end.

End Clients.

(** Writing to memory and reading the bytes back with a [k]-byte buffer. *)
Definition roundtrip (es : list entry) (k : nat) : outcome (list entry) :=
  let '(w, err) := write_archive (nil : MemSink) es in
  match err with
  | Some e => Failed e
  | None => read_archive (S (length es)) (contents (w_io w) : MemSource) k
  end.

(** ** Vocabulary of the statements *)

Definition spaces (k : nat) : bytes := repeat space k.

(** What a write of [s] into a fresh slot of [w] bytes leaves there: [s]
    followed by spaces, cut at [w] bytes. *)
Definition field (w : nat) (s : string) : bytes :=
  firstn w (bytes_of_string s ++ spaces (w - String.length s)).

Definition terminator : string := String backtick (String newline EmptyString).

(** The numeric fields of a header record, with their slots and bases. *)
Inductive numfield : Type := FDate | FUid | FGid | FMode | FSize.

Definition nf_value (h : Header) (f : numfield) : Z :=
  match f with
  | FDate => time.Time_Unix (Date h)
  | FUid => Uid h
  | FGid => Gid h
  | FMode => Mode h
  | FSize => Size h
  end.

Definition nf_base (f : numfield) : Z :=
  match f with FMode => 8 | _ => 10 end.

Definition nf_lo (f : numfield) : nat :=
  match f with FDate => 16 | FUid => 28 | FGid => 34 | FMode => 40 | FSize => 48 end.

Definition nf_hi (f : numfield) : nat :=
  match f with FDate => 28 | FUid => 34 | FGid => 40 | FMode => 48 | FSize => 58 end.

Definition nf_width (f : numfield) : nat := (nf_hi f - nf_lo f)%nat.

(** What [WriteHeader] renders for a numeric field before it copies it. *)
Definition rendering (h : Header) (f : numfield) : string :=
  strconv.FormatInt (nf_value h f) (nf_base f).

(** Successive [Write] calls on the current entry, up to the first one that
    fails. *)
Fixpoint write_chunks {W} `{IoWriter W} (w : Writer W) (bs : list bytes)
  : Writer W * option error :=
  match bs with
  | [] => (w, None)
  | b :: bs' =>
      let '(w', (_, err)) := Write w b in
      match err with
      | Some e => (w', Some e)
      | None => write_chunks w' bs'
      end
  end.

(** The number of payload bytes handed to [Write] by a run of calls. *)
Definition running_total (bs : list bytes) : Z :=
  fold_right (fun b acc => len b + acc) 0 bs.

(** The bytes one entry occupies in an archive. *)
Definition entry_bytes (e : entry) : bytes :=
  header_buf (fst e) ++ snd e ++ (if Z.odd (len (snd e)) then [newline] else []).

(** A string that starts with a digit of the given base. *)
Definition starts_with_digit (base : Z) (s : string) : Prop :=
  exists d rest, 0 <= d < base /\ s = String (strconv.digit_char d) rest.

(** A name [WriteHeader] stores whole and [Next] gives back as it was: not
    empty, at most 16 bytes, and not ending in a space. *)
Definition name_fits (s : string) : Prop :=
  (1 <= String.length s <= 16)%nat /\ last (bytes_of_string s) space <> space.



(** * Properties *)

(** ** Lists, strings and slices *)

Lemma len_app {A} (l1 l2 : list A) : len (l1 ++ l2) = len l1 + len l2.
Proof. unfold len. rewrite length_app. lia. Qed.

Lemma len_nonneg {A} (l : list A) : 0 <= len l.
Proof. unfold len. lia. Qed.

Lemma bytes_of_string_app (s1 s2 : string) :
  bytes_of_string (String.append s1 s2) = bytes_of_string s1 ++ bytes_of_string s2.
Proof.
  induction s1 as [|c s1 IH]; simpl; [reflexivity|].
  unfold bytes_of_string in *. simpl. now rewrite IH.
Qed.

Lemma bytes_of_string_length (s : string) :
  length (bytes_of_string s) = String.length s.
Proof.
  induction s as [|c s IH]; simpl; [reflexivity|].
  unfold bytes_of_string in *. simpl. now rewrite IH.
Qed.

Lemma string_of_bytes_of_string (s : string) :
  string_of_bytes (bytes_of_string s) = s.
Proof. apply string_of_list_ascii_of_string. Qed.

Lemma bytes_of_string_of_bytes (b : bytes) :
  bytes_of_string (string_of_bytes b) = b.
Proof. apply list_ascii_of_string_of_list_ascii. Qed.

Lemma string_append_length (s1 s2 : string) :
  String.length (String.append s1 s2) = (String.length s1 + String.length s2)%nat.
Proof. induction s1 as [|c s1 IH]; simpl; [reflexivity|now rewrite IH]. Qed.

Lemma slice_app_mid (a m c : bytes) (lo hi : nat) :
  length a = lo -> length m = (hi - lo)%nat ->
  slice (a ++ m ++ c) lo hi = m.
Proof.
  intros Ha Hm. unfold slice.
  rewrite skipn_app, <- Ha, skipn_all, Nat.sub_diag. simpl.
  rewrite Ha, <- Hm, firstn_app, Nat.sub_diag, firstn_all. simpl.
  apply app_nil_r.
Qed.

Lemma on_slice_app (a m c : bytes) (lo hi : nat) (f : bytes -> bytes) :
  length a = lo -> length m = (hi - lo)%nat -> (lo <= hi)%nat ->
  on_slice (a ++ m ++ c) lo hi f = a ++ f m ++ c.
Proof.
  intros Ha Hm Hle. unfold on_slice.
  rewrite (slice_app_mid a m c lo hi Ha Hm).
  rewrite firstn_app, <- Ha, firstn_all, Nat.sub_diag. simpl. rewrite app_nil_r.
  f_equal. f_equal.
  replace hi with (length (a ++ m)) by (rewrite length_app; lia).
  rewrite app_assoc, skipn_app, skipn_all, Nat.sub_diag. reflexivity.
Qed.

(** ** Padding and fixed-width fields *)

Lemma pad_loop_spec (fuel : nat) : forall (s : string) (w : nat),
    (w - String.length s <= fuel)%nat ->
    bytes_of_string (pad_loop fuel s w) =
    bytes_of_string s ++ spaces (w - String.length s).
Proof.
  induction fuel as [|fuel IH]; intros s w Hf; simpl.
  - replace (w - String.length s)%nat with 0%nat by lia. simpl.
    now rewrite app_nil_r.
  - destruct (Nat.ltb_spec (String.length s) w) as [Hlt|Hge].
    + rewrite IH by (rewrite string_append_length; simpl; lia).
      rewrite bytes_of_string_app, string_append_length. simpl.
      rewrite <- app_assoc. f_equal.
      replace (w - String.length s)%nat with (S (w - (String.length s + 1)))%nat by lia.
      reflexivity.
    + replace (w - String.length s)%nat with 0%nat by lia. simpl.
      now rewrite app_nil_r.
Qed.

Lemma pad_spec (s : string) (w : nat) :
  bytes_of_string (pad s w) = bytes_of_string s ++ spaces (w - String.length s).
Proof. unfold pad. apply pad_loop_spec. lia. Qed.

(** The padding loop has run to its end: its condition no longer holds. *)
Lemma pad_done (s : string) (w : nat) : (String.length (pad s w) <? w)%nat = false.
Proof.
  apply Nat.ltb_ge. rewrite <- bytes_of_string_length, pad_spec, length_app.
  unfold spaces. rewrite repeat_length, bytes_of_string_length. lia.
Qed.

Lemma field_length (w : nat) (s : string) : length (field w s) = w.
Proof.
  unfold field, spaces.
  rewrite length_firstn, length_app, repeat_length, bytes_of_string_length. lia.
Qed.

Lemma copy_pad (b : bytes) (s : string) :
  copy b (bytes_of_string (pad s (length b))) = field (length b) s.
Proof.
  unfold copy, field. rewrite pad_spec.
  rewrite skipn_all2; [apply app_nil_r|].
  unfold spaces. rewrite length_app, repeat_length, bytes_of_string_length. lia.
Qed.

Lemma field_fits (w : nat) (s : string) :
  (String.length s <= w)%nat ->
  field w s = bytes_of_string s ++ spaces (w - String.length s).
Proof.
  intros Hle. unfold field, spaces. apply firstn_all2.
  rewrite length_app, repeat_length, bytes_of_string_length. lia.
Qed.

Lemma field_truncates (w : nat) (s : string) :
  (w <= String.length s)%nat ->
  field w s = firstn w (bytes_of_string s).
Proof.
  intros Hle. unfold field.
  rewrite firstn_app, bytes_of_string_length.
  replace (w - String.length s)%nat with 0%nat by lia. simpl.
  apply app_nil_r.
Qed.

Lemma writeString_field (b : bytes) (s : string) :
  writeString b s = field (length b) s.
Proof. apply copy_pad. Qed.

Lemma writeInt_field (b : bytes) (i : Z) :
  writeInt b i = field (length b) (strconv.FormatInt i 10).
Proof. apply copy_pad. Qed.

Lemma writeOctal_field (b : bytes) (i : Z) :
  writeOctal b i = field (length b) (strconv.FormatInt i 8).
Proof. apply copy_pad. Qed.

Lemma on_slice_fill (a c : bytes) (lo hi : nat) (f : bytes -> bytes) (s : string) :
  (forall b, f b = field (length b) s) ->
  length a = lo -> (lo <= hi)%nat ->
  on_slice (a ++ make (hi - lo) ++ c) lo hi f = a ++ field (hi - lo) s ++ c.
Proof.
  intros Hf Ha Hle.
  rewrite on_slice_app; try assumption.
  - rewrite Hf. unfold make. now rewrite repeat_length.
  - unfold make. apply repeat_length.
Qed.

Lemma header_buf_layout (h : Header) :
  header_buf h =
  field 16 (Name h) ++
  field 12 (strconv.FormatInt (time.Time_Unix (Date h)) 10) ++
  field 6 (strconv.FormatInt (Uid h) 10) ++
  field 6 (strconv.FormatInt (Gid h) 10) ++
  field 8 (strconv.FormatInt (Mode h) 8) ++
  field 10 (strconv.FormatInt (Size h) 10) ++
  field 2 terminator.
Proof.
  set (F1 := field 16 (Name h)).
  set (F2 := field 12 (strconv.FormatInt (time.Time_Unix (Date h)) 10)).
  set (F3 := field 6 (strconv.FormatInt (Uid h) 10)).
  set (F4 := field 6 (strconv.FormatInt (Gid h) 10)).
  set (F5 := field 8 (strconv.FormatInt (Mode h) 8)).
  set (F6 := field 10 (strconv.FormatInt (Size h) 10)).
  assert (L1 : length F1 = 16%nat) by apply field_length.
  assert (L2 : length F2 = 12%nat) by apply field_length.
  assert (L3 : length F3 = 6%nat) by apply field_length.
  assert (L4 : length F4 = 6%nat) by apply field_length.
  assert (L5 : length F5 = 8%nat) by apply field_length.
  assert (L6 : length F6 = 10%nat) by apply field_length.
  unfold header_buf, HeaderByteSize. cbv zeta.
  pose proof (on_slice_fill [] (make 44) 0 16 _ (Name h)
                (fun b => writeString_field b _) eq_refl ltac:(lia)) as E1.
  cbn [Nat.sub] in E1.
  change ([] ++ make 16 ++ make 44) with (make 60) in E1.
  rewrite E1. clear E1. fold F1. rewrite app_nil_l.
  pose proof (on_slice_fill F1 (make 32) 16 28 _ _
                (fun b => writeInt_field b (time.Time_Unix (Date h))) L1 ltac:(lia)) as E2.
  cbn [Nat.sub] in E2.
  change (make 12 ++ make 32) with (make 44) in E2.
  rewrite E2. clear E2. fold F2.
  pose proof (on_slice_fill (F1 ++ F2) (make 26) 28 34 _ _
                (fun b => writeInt_field b (Uid h))
                ltac:(rewrite length_app; lia) ltac:(lia)) as E3.
  cbn [Nat.sub] in E3.
  change (make 6 ++ make 26) with (make 32) in E3.
  rewrite <- !app_assoc in E3. rewrite E3. clear E3. fold F3.
  pose proof (on_slice_fill (F1 ++ F2 ++ F3) (make 20) 34 40 _ _
                (fun b => writeInt_field b (Gid h))
                ltac:(rewrite !length_app; lia) ltac:(lia)) as E4.
  cbn [Nat.sub] in E4.
  change (make 6 ++ make 20) with (make 26) in E4.
  rewrite <- !app_assoc in E4. rewrite E4. clear E4. fold F4.
  pose proof (on_slice_fill (F1 ++ F2 ++ F3 ++ F4) (make 12) 40 48 _ _
                (fun b => writeOctal_field b (Mode h))
                ltac:(rewrite !length_app; lia) ltac:(lia)) as E5.
  cbn [Nat.sub] in E5.
  change (make 8 ++ make 12) with (make 20) in E5.
  rewrite <- !app_assoc in E5. rewrite E5. clear E5. fold F5.
  pose proof (on_slice_fill (F1 ++ F2 ++ F3 ++ F4 ++ F5) (make 2) 48 58 _ _
                (fun b => writeInt_field b (Size h))
                ltac:(rewrite !length_app; lia) ltac:(lia)) as E6.
  cbn [Nat.sub] in E6.
  change (make 10 ++ make 2) with (make 12) in E6.
  rewrite <- !app_assoc in E6. rewrite E6. clear E6. fold F6.
  pose proof (on_slice_fill (F1 ++ F2 ++ F3 ++ F4 ++ F5 ++ F6) [] 58 60 _ _
                (fun b => writeString_field b terminator)
                ltac:(rewrite !length_app; lia) ltac:(lia)) as E7.
  cbn [Nat.sub] in E7.
  change (make 2 ++ []) with (make 2) in E7.
  rewrite <- !app_assoc in E7. unfold terminator in E7 at 1.
  rewrite E7. clear E7.
  rewrite app_nil_r. reflexivity.
Qed.

Lemma header_buf_length (h : Header) : length (header_buf h) = HeaderByteSize.
Proof.
  rewrite header_buf_layout. rewrite !length_app, !field_length. reflexivity.
Qed.

Lemma header_buf_slices (h : Header) :
  slice (header_buf h) 0 16 = field 16 (Name h) /\
  slice (header_buf h) 16 28 = field 12 (strconv.FormatInt (time.Time_Unix (Date h)) 10) /\
  slice (header_buf h) 28 34 = field 6 (strconv.FormatInt (Uid h) 10) /\
  slice (header_buf h) 34 40 = field 6 (strconv.FormatInt (Gid h) 10) /\
  slice (header_buf h) 40 48 = field 8 (strconv.FormatInt (Mode h) 8) /\
  slice (header_buf h) 48 58 = field 10 (strconv.FormatInt (Size h) 10) /\
  slice (header_buf h) 58 60 = field 2 terminator.
Proof.
  rewrite header_buf_layout.
  set (F1 := field 16 _). set (F2 := field 12 _).
  set (F3 := field 6 (strconv.FormatInt (Uid h) 10)).
  set (F4 := field 6 (strconv.FormatInt (Gid h) 10)).
  set (F5 := field 8 _). set (F6 := field 10 _). set (F7 := field 2 _).
  assert (L1 : length F1 = 16%nat) by apply field_length.
  assert (L2 : length F2 = 12%nat) by apply field_length.
  assert (L3 : length F3 = 6%nat) by apply field_length.
  assert (L4 : length F4 = 6%nat) by apply field_length.
  assert (L5 : length F5 = 8%nat) by apply field_length.
  assert (L6 : length F6 = 10%nat) by apply field_length.
  assert (L7 : length F7 = 2%nat) by apply field_length.
  repeat split.
  - apply (slice_app_mid [] F1); [reflexivity | exact L1].
  - apply (slice_app_mid F1 F2); [exact L1 | exact L2].
  - rewrite (app_assoc F1 F2).
    apply slice_app_mid; [rewrite length_app; lia | exact L3].
  - rewrite (app_assoc F1 F2), (app_assoc (F1 ++ F2) F3).
    apply slice_app_mid; [rewrite !length_app; lia | exact L4].
  - rewrite (app_assoc F1 F2), (app_assoc (F1 ++ F2) F3),
      (app_assoc ((F1 ++ F2) ++ F3) F4).
    apply slice_app_mid; [rewrite !length_app; lia | exact L5].
  - rewrite (app_assoc F1 F2), (app_assoc (F1 ++ F2) F3),
      (app_assoc ((F1 ++ F2) ++ F3) F4), (app_assoc (((F1 ++ F2) ++ F3) ++ F4) F5).
    apply slice_app_mid; [rewrite !length_app; lia | exact L6].
  - rewrite (app_assoc F1 F2), (app_assoc (F1 ++ F2) F3),
      (app_assoc ((F1 ++ F2) ++ F3) F4), (app_assoc (((F1 ++ F2) ++ F3) ++ F4) F5),
      (app_assoc ((((F1 ++ F2) ++ F3) ++ F4) ++ F5) F6).
    rewrite <- (app_nil_r F7) at 1.
    apply slice_app_mid; [rewrite !length_app; lia | exact L7].
Qed.

(** ** Writer *)

Lemma WriteHeader_mem (w : Writer MemSink) (h : Header) :
  WriteHeader w h = ({| w_io := w_io w ++ [header_buf h]; w_n := Size h |}, None).
Proof. reflexivity. Qed.

Lemma Write_keeps_counter {W} `{IoWriter W} (w : Writer W) (b : bytes) :
  w_n (fst (Write w b)) = w_n w.
Proof.
  unfold Write. destruct (w_n w <? len b); [reflexivity|].
  destruct (io_Write _ _) as [io' [n err]]. reflexivity.
Qed.

(** C6. A [Write] of a buffer longer than the remaining counter returns
    [ErrWriteTooLong] with a count of zero, hands nothing to the underlying
    stream and leaves the counter as it was: the writer is returned
    unchanged. *)
Theorem Write_too_long {W} `{IoWriter W} (w : Writer W) (b : bytes) :
  w_n w < len b ->
  Write w b = (w, (0, Some ErrWriteTooLong)) /\
  w_io (fst (Write w b)) = w_io w /\
  w_n (fst (Write w b)) = w_n w.
Proof.
  intros Hlt. unfold Write.
  destruct (Z.ltb_spec (w_n w) (len b)) as [_|Hge]; [|lia].
  repeat split.
Qed.

Lemma Write_too_long_witness :
  let w : Writer MemSink := {| w_io := [header_buf
            {| Name := "a"; Date := time.Unix 0 0; Uid := 0; Gid := 0;
               Mode := 0; Size := 2 |}]; w_n := 2 |} in
  let b := bytes_of_string "abc" in
  w_n w < len b /\
  Write w b = (w, (0, Some ErrWriteTooLong)) /\
  w_io (fst (Write w b)) = w_io w /\
  w_n (fst (Write w b)) = w_n w.
Proof.
  intros w b. split; [reflexivity|].
  apply (Write_too_long w b). reflexivity.
Defined.

(** C3, at a failing input.  After [WriteHeader] of an entry of [Size] 4, a
    [Write] of 2 bytes succeeds and the remaining counter is still 4, not
    2: [Write] never subtracts from [w.n]. *)
Theorem Write_counter_not_decremented :
  let h := {| Name := "a"; Date := time.Unix 0 0; Uid := 0; Gid := 0;
              Mode := 0; Size := 4 |} in
  let w : Writer MemSink := fst (WriteHeader (NewWriter []) h) in
  let b := bytes_of_string "ab" in
  len b <= w_n w /\
  snd (Write w b) = (2, None) /\
  w_n (fst (Write w b)) = 4 /\
  w_n (fst (Write w b)) <> w_n w - len b.
Proof.
  cbv zeta. repeat split; try reflexivity.
  - vm_compute. discriminate.
  - vm_compute. discriminate.
Qed.

Lemma rem2_odd (z : Z) : 0 <= z -> (Z.rem z 2 =? 1) = Z.odd z.
Proof.
  intros Hz. rewrite Z.rem_mod_nonneg by lia. rewrite Zodd_mod. reflexivity.
Qed.

Lemma Write_mem_accepted (w : Writer MemSink) (b : bytes) :
  len b <= w_n w ->
  Write w b =
  ({| w_io := w_io w ++ [if Z.odd (len b) then b ++ [newline] else b];
      w_n := w_n w |},
   (len (if Z.odd (len b) then b ++ [newline] else b), None)).
Proof.
  intros Hle. unfold Write.
  destruct (Z.ltb_spec (w_n w) (len b)) as [Hlt|_]; [lia|].
  rewrite rem2_odd by apply len_nonneg. reflexivity.
Qed.

(** C4 as stated fails: in an entry of [Size] 2 written by two calls of one
    byte each, the second call brings the running total to 2, which is
    even, and a pad byte is emitted all the same. *)
Lemma pad_not_by_running_total :
  ~ (forall (h : Header) (prev : list bytes) (b : bytes)
            (w1 w2 : Writer MemSink) (n : Z),
        write_chunks (fst (WriteHeader (NewWriter []) h)) prev = (w1, None) ->
        Write w1 b = (w2, (n, None)) ->
        (w_io w2 = w_io w1 ++ [b ++ [newline]] <->
         Z.odd (running_total prev + len b) = true)).
Proof.
  intros claim.
  pose (h := {| Name := "a"; Date := time.Unix 0 0; Uid := 0; Gid := 0;
                Mode := 0; Size := 2 |}).
  pose (x := bytes_of_string "x").
  destruct (write_chunks (fst (WriteHeader (NewWriter ([] : MemSink)) h)) [x])
    as [w1 e1] eqn:E1.
  destruct (Write w1 x) as [w2 [n e2]] eqn:E2.
  vm_compute in E1. injection E1 as <- <-.
  vm_compute in E2. injection E2 as <- <- <-.
  specialize (claim h [x] x _ _ _ eq_refl eq_refl).
  destruct claim as [claim _].
  specialize (claim eq_refl). vm_compute in claim. discriminate.
Qed.

(** C4, amended.  An accepted [Write] makes exactly one call of the
    underlying stream; what it hands over is the payload followed by one
    pad byte when the length of this call's buffer is odd, and the payload
    alone when it is even. *)
Theorem Write_pads_by_call_length (w : Writer MemSink) (b : bytes) :
  len b <= w_n w ->
  w_io (fst (Write w b)) =
    w_io w ++ [if Z.odd (len b) then b ++ [newline] else b] /\
  snd (snd (Write w b)) = None.
Proof.
  intros Hle. rewrite (Write_mem_accepted w b Hle). split; reflexivity.
Qed.

Lemma Write_pads_by_call_length_witness :
  let w : Writer MemSink := {| w_io := []; w_n := 5 |} in
  let b := bytes_of_string "abc" in
  len b <= w_n w /\
  w_io (fst (Write w b)) =
    w_io w ++ [if Z.odd (len b) then b ++ [newline] else b] /\
  snd (snd (Write w b)) = None.
Proof.
  intros w b. split; [vm_compute; discriminate|].
  apply (Write_pads_by_call_length w b). vm_compute. discriminate.
Defined.

Lemma numeric_slot (h : Header) (f : numfield) :
  slice (header_buf h) (nf_lo f) (nf_hi f) = field (nf_width f) (rendering h f).
Proof.
  pose proof (header_buf_slices h) as (_ & Hd & Hu & Hg & Hm & Hs & _).
  destruct f; assumption.
Qed.

(** C9. When the rendering of a numeric field (decimal for Date, Uid, Gid
    and Size, octal for Mode) is wider than the field's slot, [WriteHeader]
    still succeeds: it hands one 60-byte record to the stream, sets the
    counter to [Size], and the slot holds the first bytes of the rendering,
    as many as the slot is wide. *)
Theorem WriteHeader_truncates_numeric (w : Writer MemSink) (h : Header) (f : numfield) :
  (nf_width f < String.length (rendering h f))%nat ->
  WriteHeader w h = ({| w_io := w_io w ++ [header_buf h]; w_n := Size h |}, None) /\
  length (header_buf h) = 60%nat /\
  slice (header_buf h) (nf_lo f) (nf_hi f) =
    firstn (nf_width f) (bytes_of_string (rendering h f)).
Proof.
  intros Hwide. split; [apply WriteHeader_mem|].
  split; [apply header_buf_length|].
  rewrite numeric_slot. apply field_truncates. lia.
Qed.

Lemma WriteHeader_truncates_numeric_witness :
  let h := {| Name := "a"; Date := time.Unix 0 0; Uid := 1234567; Gid := 0;
              Mode := 0; Size := 0 |} in
  let w : Writer MemSink := NewWriter [] in
  (nf_width FUid < String.length (rendering h FUid))%nat /\
  WriteHeader w h = ({| w_io := w_io w ++ [header_buf h]; w_n := Size h |}, None) /\
  length (header_buf h) = 60%nat /\
  slice (header_buf h) (nf_lo FUid) (nf_hi FUid) = bytes_of_string "123456".
Proof.
  intros h w.
  assert (Hwide : (nf_width FUid < String.length (rendering h FUid))%nat)
    by (vm_compute; lia).
  split; [exact Hwide|].
  destruct (WriteHeader_truncates_numeric w h FUid Hwide) as (H1 & H2 & H3).
  split; [exact H1|]. split; [exact H2|]. rewrite H3. reflexivity.
Defined.

(** C10. A [Name] longer than 16 bytes is cut to its first 16 bytes in the
    record; [WriteHeader] succeeds all the same and the record is still 60
    bytes long. *)
Theorem WriteHeader_truncates_name (w : Writer MemSink) (h : Header) :
  (16 < String.length (Name h))%nat ->
  WriteHeader w h = ({| w_io := w_io w ++ [header_buf h]; w_n := Size h |}, None) /\
  length (header_buf h) = 60%nat /\
  slice (header_buf h) 0 16 = firstn 16 (bytes_of_string (Name h)).
Proof.
  intros Hlong. split; [apply WriteHeader_mem|].
  split; [apply header_buf_length|].
  pose proof (header_buf_slices h) as (Hn & _).
  rewrite Hn. apply field_truncates. lia.
Qed.

Lemma WriteHeader_truncates_name_witness :
  let h := {| Name := "a-name-of-twenty-four-by"; Date := time.Unix 0 0;
              Uid := 0; Gid := 0; Mode := 0; Size := 0 |} in
  let w : Writer MemSink := NewWriter [] in
  (16 < String.length (Name h))%nat /\
  WriteHeader w h = ({| w_io := w_io w ++ [header_buf h]; w_n := Size h |}, None) /\
  length (header_buf h) = 60%nat /\
  slice (header_buf h) 0 16 = bytes_of_string "a-name-of-twenty".
Proof.
  intros h w.
  assert (Hlong : (16 < String.length (Name h))%nat) by (vm_compute; lia).
  split; [exact Hlong|].
  destruct (WriteHeader_truncates_name w h Hlong) as (H1 & H2 & H3).
  split; [exact H1|]. split; [exact H2|]. rewrite H3. reflexivity.
Defined.

(** ** strconv: parsing undoes formatting *)

Lemma bytes_of_string_cons (c : ascii) (s : string) :
  bytes_of_string (String c s) = c :: bytes_of_string s.
Proof. reflexivity. Qed.

Lemma nat_of_digit_char (d : Z) :
  0 <= d < 36 ->
  Z.of_nat (nat_of_ascii (strconv.digit_char d)) = if d <? 10 then 48 + d else 87 + d.
Proof.
  intros Hd. unfold strconv.digit_char.
  destruct (Z.ltb_spec d 10); rewrite nat_ascii_embedding; lia.
Qed.

Lemma digit_val_digit_char (d : Z) :
  0 <= d < 36 -> strconv.digit_val (strconv.digit_char d) = Some d.
Proof.
  intros Hd. unfold strconv.digit_val. rewrite nat_of_digit_char by assumption.
  destruct (Z.ltb_spec d 10).
  - replace ((48 <=? 48 + d) && (48 + d <=? 57)) with true
      by (symmetry; apply andb_true_iff; split; apply Z.leb_le; lia).
    f_equal. lia.
  - replace ((48 <=? 87 + d) && (87 + d <=? 57)) with false
      by (symmetry; apply andb_false_iff; right; apply Z.leb_gt; lia).
    replace ((97 <=? 87 + d) && (87 + d <=? 122)) with true
      by (symmetry; apply andb_true_iff; split; apply Z.leb_le; lia).
    f_equal. lia.
Qed.

Lemma digit_char_neq (d : Z) (c : ascii) :
  0 <= d < 36 -> (nat_of_ascii c < 48)%nat -> strconv.digit_char d <> c.
Proof.
  intros Hd Hc E. pose proof (nat_of_digit_char d Hd) as Hn.
  rewrite E in Hn. destruct (d <? 10); lia.
Qed.

Section ParseFormat.

Variable base : Z.
Hypothesis base_range : 2 <= base <= 36.

Lemma max_uint64_cutoff (u : Z) :
  0 <= u <= max_uint64 -> (max_uint64 / base + 1 <=? u / base) = false.
Proof.
  intros Hu. apply Z.leb_gt.
  assert (u / base <= max_uint64 / base) by (apply Z.div_le_mono; lia).
  lia.
Qed.

Lemma ParseUint_loop_formatBits (fuel : nat) : forall (u : Z) (acc : string),
    0 <= u <= max_uint64 -> u < base ^ Z.of_nat fuel ->
    strconv.ParseUint_loop (bytes_of_string (strconv.formatBits fuel u base acc)) base 0 =
    strconv.ParseUint_loop (bytes_of_string acc) base u.
Proof.
  induction fuel as [|fuel IH]; intros u acc Hu Hlt.
  - simpl in *. replace u with 0 by lia. reflexivity.
  - cbn [strconv.formatBits].
    destruct (Z.leb_spec base u) as [Hge|Hsmall].
    + rewrite IH.
      * rewrite bytes_of_string_cons. cbn [strconv.ParseUint_loop].
        pose proof (Z.mod_pos_bound u base ltac:(lia)) as Hm.
        rewrite digit_val_digit_char by lia.
        destruct (Z.leb_spec base (u mod base)) as [|_]; [lia|].
        rewrite max_uint64_cutoff by assumption.
        replace (u / base * base + u mod base) with u
          by (rewrite (Z.div_mod u base) at 1; lia).
        destruct (Z.ltb_spec max_uint64 u) as [|_]; [lia|]. reflexivity.
      * split; [apply Z.div_pos; lia|].
        apply Z.le_trans with u; [|lia].
        apply Z.div_le_upper_bound; nia.
      * rewrite Nat2Z.inj_succ, Z.pow_succ_r in Hlt by lia.
        apply Z.div_lt_upper_bound; lia.
    + rewrite bytes_of_string_cons. cbn [strconv.ParseUint_loop].
      rewrite digit_val_digit_char by lia.
      destruct (Z.leb_spec base u) as [|_]; [lia|].
      destruct (Z.leb_spec (max_uint64 / base + 1) 0) as [Hc|_].
      { assert (0 <= max_uint64 / base) by (apply Z.div_pos; unfold max_uint64; lia). lia. }
      replace (0 * base + u) with u by lia.
      destruct (Z.ltb_spec max_uint64 u) as [|_]; [lia|]. reflexivity.
Qed.

Lemma formatBits_keeps_digit (fuel : nat) : forall (u : Z) (acc : string),
    0 <= u -> starts_with_digit base acc ->
    starts_with_digit base (strconv.formatBits fuel u base acc).
Proof.
  induction fuel as [|fuel IH]; intros u acc Hu Hacc; [exact Hacc|].
  cbn [strconv.formatBits]. destruct (Z.leb_spec base u).
  - apply IH; [apply Z.div_pos; lia|].
    exists (u mod base), acc. split; [apply Z.mod_pos_bound; lia | reflexivity].
  - exists u, acc. split; [lia | reflexivity].
Qed.

Lemma formatBits_starts_with_digit (fuel : nat) (u : Z) (acc : string) :
  0 <= u -> starts_with_digit base (strconv.formatBits (S fuel) u base acc).
Proof.
  intros Hu. cbn [strconv.formatBits]. destruct (Z.leb_spec base u).
  - apply formatBits_keeps_digit; [apply Z.div_pos; lia|].
    exists (u mod base), acc. split; [apply Z.mod_pos_bound; lia | reflexivity].
  - exists u, acc. split; [lia | reflexivity].
Qed.

Lemma formatBits_extends (fuel : nat) : forall (u : Z) (acc : string),
    exists pre, bytes_of_string (strconv.formatBits fuel u base acc) =
                pre ++ bytes_of_string acc.
Proof.
  induction fuel as [|fuel IH]; intros u acc; [exists []; reflexivity|].
  cbn [strconv.formatBits]. destruct (base <=? u).
  - destruct (IH (u / base) (String (strconv.digit_char (u mod base)) acc)) as [pre E].
    exists (pre ++ [strconv.digit_char (u mod base)]).
    rewrite E, bytes_of_string_cons, <- app_assoc. reflexivity.
  - exists [strconv.digit_char u]. reflexivity.
Qed.

Lemma pow64_bound (u : Z) : 0 <= u <= max_uint64 -> u < base ^ Z.of_nat 64.
Proof.
  intros Hu. apply Z.lt_le_trans with (2 ^ 64); [unfold max_uint64 in Hu; lia|].
  change (Z.of_nat 64) with 64. apply Z.pow_le_mono_l. lia.
Qed.

Lemma ParseUint_formatBits (u : Z) :
  0 <= u <= max_uint64 ->
  strconv.ParseUint (strconv.formatBits 64 u base EmptyString) base = Ok u.
Proof.
  intros Hu. unfold strconv.ParseUint.
  destruct (formatBits_starts_with_digit 63 u EmptyString (proj1 Hu)) as (d & rest & _ & E).
  rewrite E, <- E.
  rewrite ParseUint_loop_formatBits by (try apply pow64_bound; assumption).
  reflexivity.
Qed.

Theorem ParseInt_FormatInt (i : Z) :
  is_int64 i -> strconv.ParseInt (strconv.FormatInt i base) base = Ok i.
Proof.
  intros Hi. unfold is_int64, min_int64, max_int64 in Hi.
  unfold strconv.FormatInt. destruct (Z.ltb_spec i 0) as [Hneg|Hpos].
  - cbn [strconv.ParseInt]. cbn [Ascii.eqb Bool.eqb].
    rewrite ParseUint_formatBits by (unfold max_uint64; lia).
    cbn [negb andb].
    destruct (Z.ltb_spec (2 ^ 63) (Z.abs i)) as [|_]; [lia|].
    f_equal. lia.
  - destruct (formatBits_starts_with_digit 63 (Z.abs i) EmptyString (Z.abs_nonneg i))
      as (d & rest & Hd & E).
    unfold strconv.ParseInt. rewrite E.
    assert (Hplus : Ascii.eqb (strconv.digit_char d) "+" = false).
    { apply Ascii.eqb_neq, digit_char_neq; [lia | apply Nat.ltb_lt; reflexivity]. }
    assert (Hminus : Ascii.eqb (strconv.digit_char d) "-" = false).
    { apply Ascii.eqb_neq, digit_char_neq; [lia | apply Nat.ltb_lt; reflexivity]. }
    rewrite Hplus, Hminus, <- E.
    rewrite ParseUint_formatBits by (unfold max_uint64; lia).
    cbn [negb andb].
    destruct (Z.leb_spec (2 ^ 63) (Z.abs i)) as [|_]; [lia|].
    f_equal. lia.
Qed.

(** A rendering is not empty and its last byte is a digit, not a space. *)
Lemma FormatInt_last (i : Z) :
  exists x c, bytes_of_string (strconv.FormatInt i base) = x ++ [c] /\ c <> space.
Proof.
  assert (Hfb : exists x c,
             bytes_of_string (strconv.formatBits 64 (Z.abs i) base EmptyString) = x ++ [c]
             /\ c <> space).
  { change 64%nat with (S 63). cbn [strconv.formatBits].
    destruct (Z.leb_spec base (Z.abs i)).
    - destruct (formatBits_extends 63 (Z.abs i / base)
                  (String (strconv.digit_char (Z.abs i mod base)) EmptyString)) as [pre E].
      exists pre, (strconv.digit_char (Z.abs i mod base)). split; [exact E|].
      apply digit_char_neq; [|apply Nat.ltb_lt; reflexivity].
      pose proof (Z.mod_pos_bound (Z.abs i) base ltac:(lia)). lia.
    - exists [], (strconv.digit_char (Z.abs i)). split; [reflexivity|].
      apply digit_char_neq; [|apply Nat.ltb_lt; reflexivity].
      pose proof (Z.abs_nonneg i). lia. }
  destruct Hfb as (x & c & E & Hc).
  unfold strconv.FormatInt. destruct (i <? 0).
  - exists ("-"%char :: x), c. rewrite bytes_of_string_cons, E. split; [reflexivity|exact Hc].
  - exists x, c. split; assumption.
Qed.

Lemma formatBits_length_acc (fuel : nat) (u : Z) (acc : string) :
  (String.length acc <= String.length (strconv.formatBits fuel u base acc))%nat.
Proof.
  destruct (formatBits_extends fuel u acc) as [pre E].
  rewrite <- !bytes_of_string_length, E, length_app. lia.
Qed.

(** A value of more than [k] digits has a rendering of more than [k]
    bytes. *)
Lemma formatBits_length (k : nat) : forall (fuel : nat) (u : Z) (acc : string),
    (k < fuel)%nat -> base ^ Z.of_nat k <= u ->
    (k + 1 + String.length acc <= String.length (strconv.formatBits fuel u base acc))%nat.
Proof.
  induction k as [|k IH]; intros fuel u acc Hfuel Hu;
    (destruct fuel as [|fuel]; [lia|]); cbn [strconv.formatBits].
  - destruct (base <=? u); [|simpl; lia].
    pose proof (formatBits_length_acc fuel (u / base)
                  (String (strconv.digit_char (u mod base)) acc)) as Hl.
    simpl in Hl. lia.
  - rewrite Nat2Z.inj_succ, Z.pow_succ_r in Hu by lia.
    assert (Hp : 1 <= base ^ Z.of_nat k) by (apply Z.pow_le_mono_r with (b := 0); lia).
    destruct (Z.leb_spec base u) as [_|Hlt]; [|nia].
    pose proof (IH fuel (u / base) (String (strconv.digit_char (u mod base)) acc)
                  ltac:(lia) ltac:(apply Z.div_le_lower_bound; lia)) as Hl.
    simpl in Hl. lia.
Qed.

(** A rendering of at most 12 bytes is the rendering of an [int64]. *)
Lemma FormatInt_fits_int64 (i : Z) (w : nat) :
  (w <= 12)%nat -> (String.length (strconv.FormatInt i base) <= w)%nat -> is_int64 i.
Proof.
  intros Hw Hfit.
  assert (Hlt : Z.abs i < base ^ Z.of_nat 12).
  { destruct (Z.lt_ge_cases (Z.abs i) (base ^ Z.of_nat 12)) as [|Hge]; [assumption|].
    pose proof (formatBits_length 12 64 (Z.abs i) EmptyString ltac:(lia) Hge) as Hl.
    unfold strconv.FormatInt in Hfit. destruct (i <? 0); simpl in Hfit, Hl; lia. }
  assert (Hb : base ^ Z.of_nat 12 <= 36 ^ 12)
    by (change (Z.of_nat 12) with 12; apply Z.pow_le_mono_l; lia).
  unfold is_int64, min_int64, max_int64. lia.
Qed.

End ParseFormat.

(** ** Reading a fixed-width field back *)

Lemma nth_spaces (K n : nat) (d : byte) : (n < K)%nat -> nth n (spaces K) d = space.
Proof.
  revert n. induction K as [|K IH]; intros n Hn; [lia|].
  destruct n; simpl; [reflexivity|]. apply IH. lia.
Qed.

Lemma trim_loop_spaces (x : bytes) (c : byte) (K : nat) :
  c <> space ->
  forall (k fuel : nat), (k <= K)%nat -> (k <= fuel)%nat ->
    trim_loop fuel (x ++ c :: spaces K) (len x + Z.of_nat k) = len x.
Proof.
  intros Hc. induction k as [|k IH]; intros fuel HK Hfuel.
  - rewrite Z.add_0_r. destruct fuel; [reflexivity|]. cbn [trim_loop].
    unfold index, len. rewrite Nat2Z.id, nth_middle.
    apply Ascii.eqb_neq in Hc. rewrite Hc, andb_false_r. reflexivity.
  - destruct fuel as [|fuel]; [lia|]. cbn [trim_loop].
    assert (Hi : index (x ++ c :: spaces K) (len x + Z.of_nat (S k)) = space).
    { unfold index, len.
      replace (Z.to_nat (Z.of_nat (length x) + Z.of_nat (S k)))
        with (length x + S k)%nat by lia.
      rewrite app_nth2_plus. simpl. apply nth_spaces. lia. }
    rewrite Hi, Ascii.eqb_refl.
    destruct (Z.ltb_spec 0 (len x + Z.of_nat (S k))) as [_|Hle];
      [|pose proof (len_nonneg x); lia].
    cbn [andb].
    replace (len x + Z.of_nat (S k) - 1) with (len x + Z.of_nat k) by lia.
    apply IH; lia.
Qed.

(** The trimming loop has run to its end: its condition no longer holds. *)
Lemma trim_loop_done (b : bytes) (fuel : nat) : forall (i : Z),
    i < Z.of_nat fuel ->
    (0 <? trim_loop fuel b i) && Ascii.eqb (index b (trim_loop fuel b i)) space = false.
Proof.
  induction fuel as [|fuel IH]; intros i Hi; cbn [trim_loop].
  - destruct (Z.ltb_spec 0 i); [lia | reflexivity].
  - destruct ((0 <? i) && Ascii.eqb (index b i) space) eqn:E; [|exact E].
    apply IH. lia.
Qed.

Lemma trim_index_done (b : bytes) :
  (0 <? trim_index b) && Ascii.eqb (index b (trim_index b)) space = false.
Proof. apply trim_loop_done. unfold len. lia. Qed.

Lemma trim_index_padded (x : bytes) (c : byte) (K : nat) :
  c <> space -> trim_index (x ++ c :: spaces K) = len x.
Proof.
  intros Hc. unfold trim_index.
  replace (len (x ++ c :: spaces K) - 1) with (len x + Z.of_nat K).
  - apply trim_loop_spaces; try assumption; [lia|].
    rewrite length_app. simpl. unfold spaces. rewrite repeat_length. lia.
  - unfold len. rewrite length_app. simpl. unfold spaces. rewrite repeat_length. lia.
Qed.

Lemma trimmed_padded (x : bytes) (c : byte) (K : nat) :
  c <> space ->
  slice (x ++ c :: spaces K) 0 (Z.to_nat (trim_index (x ++ c :: spaces K) + 1)) = x ++ [c].
Proof.
  intros Hc. rewrite trim_index_padded by assumption.
  unfold slice, len. rewrite Nat.sub_0_r. simpl skipn.
  replace (Z.to_nat (Z.of_nat (length x) + 1)) with (length (x ++ [c]))
    by (rewrite length_app; simpl; lia).
  change (x ++ c :: spaces K) with (x ++ [c] ++ spaces K).
  rewrite app_assoc, firstn_app, Nat.sub_diag, firstn_all. simpl. apply app_nil_r.
Qed.

Lemma trimmed_field (w : nat) (s : string) (x : bytes) (c : byte) :
  bytes_of_string s = x ++ [c] -> c <> space -> (String.length s <= w)%nat ->
  slice (field w s) 0 (Z.to_nat (trim_index (field w s) + 1)) = bytes_of_string s.
Proof.
  intros E Hc Hfit. rewrite field_fits by assumption.
  rewrite E, <- app_assoc. simpl app. apply trimmed_padded. exact Hc.
Qed.

Lemma readInt_field (w : nat) (i : Z) :
  (w <= 12)%nat -> (String.length (strconv.FormatInt i 10) <= w)%nat ->
  readInt (field w (strconv.FormatInt i 10)) = Ok i.
Proof.
  intros Hw Hfit. unfold readInt.
  destruct (FormatInt_last 10 ltac:(lia) i) as (x & c & E & Hc).
  rewrite (trimmed_field w _ x c E Hc Hfit), string_of_bytes_of_string.
  apply ParseInt_FormatInt; [lia|].
  apply (FormatInt_fits_int64 10 ltac:(lia) i w Hw Hfit).
Qed.

Lemma readOctal_field (w : nat) (i : Z) :
  (w <= 12)%nat -> (String.length (strconv.FormatInt i 8) <= w)%nat ->
  readOctal (field w (strconv.FormatInt i 8)) = Ok i.
Proof.
  intros Hw Hfit. unfold readOctal.
  destruct (FormatInt_last 8 ltac:(lia) i) as (x & c & E & Hc).
  rewrite (trimmed_field w _ x c E Hc Hfit), string_of_bytes_of_string.
  apply ParseInt_FormatInt; [lia|].
  apply (FormatInt_fits_int64 8 ltac:(lia) i w Hw Hfit).
Qed.

Lemma readString_field (w : nat) (s : string) :
  (String.length s <= w)%nat -> last (bytes_of_string s) space <> space ->
  readString (field w s) = s.
Proof.
  intros Hfit Hlast. unfold readString.
  assert (Hne : bytes_of_string s <> []).
  { intros E. rewrite E in Hlast. apply Hlast. reflexivity. }
  destruct (exists_last Hne) as (x & c & E).
  rewrite E, last_last in Hlast.
  rewrite (trimmed_field w s x c E Hlast Hfit). apply string_of_bytes_of_string.
Qed.

(** ** Reader *)

Lemma wrap64_id (z : Z) : is_int64 z -> wrap64 z = z.
Proof.
  unfold is_int64, min_int64, max_int64, wrap64. intros Hz.
  rewrite Z.mod_small; lia.
Qed.




#[export] Instance MemSource_Contract : IoReaderContract MemSource.
Proof.
  intros s k. cbn. unfold mem_Read. destruct s as [|c s]; cbn [fst snd].
  - simpl. lia.
  - rewrite length_firstn. lia.
Qed.

Lemma skipUnread_mem (r : Reader MemSource) (unread rest : bytes) :
  r_io r = unread ++ rest ->
  r_n r + r_p r = len unread -> len unread <= max_int64 ->
  skipUnread r = ({| r_io := rest; r_n := 0; r_p := 0 |}, None).
Proof.
  intros Hio Hsum Hmax. unfold skipUnread.
  rewrite Hsum, wrap64_id
    by (pose proof (len_nonneg unread); unfold is_int64, min_int64; lia).
  cbn [io_CopyN_Discard MemSource_Reader]. unfold mem_CopyN_Discard.
  rewrite Hio. destruct (Z.leb_spec (len unread) 0) as [Hz|Hpos].
  - assert (unread = []) as ->.
    { destruct unread; [reflexivity|]. unfold len in Hz. simpl in Hz. lia. }
    reflexivity.
  - destruct (Z.leb_spec (len unread) (len (unread ++ rest))) as [_|Hgt];
      [|rewrite len_app in Hgt; pose proof (len_nonneg rest); lia].
    unfold len. rewrite Nat2Z.id, skipn_app, skipn_all, Nat.sub_diag. reflexivity.
Qed.

Lemma Next_mem_after_skip (r : Reader MemSource) (unread rest : bytes) :
  r_io r = unread ++ rest ->
  r_n r + r_p r = len unread -> len unread <= max_int64 ->
  Next r =
  let '(io', (buf, err)) := mem_ReadFull rest HeaderByteSize in
  let r2 := {| r_io := io'; r_n := 0; r_p := 0 |} in
  match err with
  | Some e => (r2, Err e)
  | None =>
      if negb (length buf =? HeaderByteSize)%nat
      then (r2, Err (Errorf "invalid file header size"))
      else
        match parse_header buf with
        | Err e => (r2, Err e)
        | Ok header =>
            ({| r_io := io'; r_n := Size header; r_p := Z.rem (Size header) 2 |},
             Ok header)
        end
  end.
Proof.
  intros Hio Hsum Hmax. unfold Next.
  rewrite (skipUnread_mem r unread rest Hio Hsum Hmax). reflexivity.
Qed.



(** C7. At a header boundary, that is with the unread payload and pad byte
    of the previous entry (if any) still in front of it, [Next] first
    discards them; then it returns [io.EOF] when no byte is left, and
    [io.ErrUnexpectedEOF], not a header, when bytes are left but fewer than
    60. *)
Theorem Next_at_header_boundary (r : Reader MemSource) (unread rest : bytes) :
  r_io r = unread ++ rest ->
  r_n r + r_p r = len unread -> len unread <= max_int64 ->
  (rest = [] -> snd (Next r) = Err EOF) /\
  ((0 < length rest < HeaderByteSize)%nat -> snd (Next r) = Err ErrUnexpectedEOF).
Proof.
  intros Hio Hsum Hmax.
  rewrite (Next_mem_after_skip r unread rest Hio Hsum Hmax).
  unfold mem_ReadFull. split.
  - intros ->. reflexivity.
  - intros [Hpos Hshort].
    destruct (Nat.leb_spec HeaderByteSize (length rest)) as [|_]; [lia|].
    destruct rest; [simpl in Hpos; lia | reflexivity].
Qed.

Lemma Next_at_header_boundary_witness :
  let unread := bytes_of_string "AAAAA" ++ [newline] in
  let rest := bytes_of_string "data.tar.xz     16" in
  let r1 : Reader MemSource := {| r_io := unread ++ []; r_n := 5; r_p := 1 |} in
  let r2 : Reader MemSource := {| r_io := unread ++ rest; r_n := 5; r_p := 1 |} in
  (r_n r2 + r_p r2 = len unread /\ len unread <= max_int64 /\
   (0 < length rest < HeaderByteSize)%nat) /\
  snd (Next r1) = Err EOF /\ snd (Next r2) = Err ErrUnexpectedEOF.
Proof.
  intros unread rest r1 r2.
  assert (Hmax : len unread <= max_int64) by (vm_compute; discriminate).
  assert (Hshort : (0 < length rest < HeaderByteSize)%nat) by (vm_compute; lia).
  split; [split; [reflexivity | split; assumption]|].
  split.
  - exact (proj1 (Next_at_header_boundary r1 unread [] eq_refl eq_refl Hmax) eq_refl).
  - exact (proj2 (Next_at_header_boundary r2 unread rest eq_refl eq_refl Hmax) Hshort).
Defined.

Lemma Next_sets_counter {Src} `{IoReader Src} (r0 r : Reader Src) (h : Header) :
  Next r0 = (r, Ok h) -> r_n r = Size h /\ r_p r = Z.rem (Size h) 2.
Proof.
  unfold Next. destruct (skipUnread r0) as [r1 [e|]]; [discriminate|].
  destruct (io_ReadFull (r_io r1) HeaderByteSize) as [io' [buf [e|]]]; [discriminate|].
  destruct (negb _); [discriminate|].
  destruct (parse_header buf) as [h'|e]; [|discriminate].
  intros E. injection E as <- <-. split; reflexivity.
Qed.

Lemma Read_exhausted {Src} `{IoReader Src} (r : Reader Src) (k : nat) :
  r_n r = 0 -> Read r k = Some (r, ([], Some EOF)).
Proof. intros Hz. unfold Read. rewrite Hz. reflexivity. Qed.



(** C2, at a failing input.  A record whose byte 58 is the backtick but
    whose byte 59 is not the newline, and a record whose byte 59 is the
    newline but whose byte 58 is not the backtick, are both parsed into a
    header: the check rejects a record only when both bytes are wrong. *)
Theorem Next_accepts_half_terminator :
  let h := {| Name := "a"; Date := time.Unix 0 0; Uid := 0; Gid := 0;
              Mode := 420; Size := 0 |} in
  let rec1 := firstn 59 (header_buf h) ++ bytes_of_string "X" in
  let rec2 := firstn 58 (header_buf h) ++ bytes_of_string "X" ++ [newline] in
  let reader (rec : bytes) : Reader MemSource :=
    {| r_io := rec; r_n := 0; r_p := 0 |} in
  (length rec1 = 60%nat /\ index rec1 58 = backtick /\ index rec1 59 <> newline /\
   snd (Next (reader rec1)) = Ok h) /\
  (length rec2 = 60%nat /\ index rec2 58 <> backtick /\ index rec2 59 = newline /\
   snd (Next (reader rec2)) = Ok h).
Proof.
  cbv zeta. split.
  - split; [reflexivity|]. split; [reflexivity|].
    split; [vm_compute; discriminate | vm_compute; reflexivity].
  - split; [reflexivity|]. split; [vm_compute; discriminate|].
    split; [reflexivity | vm_compute; reflexivity].
Qed.

(** The terminator check lets a record through as soon as one of the two
    bytes is right. *)
Lemma parse_header_ending (buf : bytes) :
  parse_header buf = Err (Errorf "invalid header ending bytes") ->
  index buf 58 <> backtick /\ index buf 59 <> newline.
Proof.
  unfold parse_header.
  destruct (Ascii.eqb_spec (index buf 58) backtick) as [E1|N1];
    destruct (Ascii.eqb_spec (index buf 59) newline) as [E2|N2]; cbn [negb andb];
    try (intros _; split; assumption);
    (destruct (readInt (slice buf 16 28)); [|discriminate];
     destruct (readInt (slice buf 28 34)); [|discriminate];
     destruct (readInt (slice buf 34 40)); [|discriminate];
     destruct (readOctal (slice buf 40 48)); [|discriminate];
     destruct (readInt (slice buf 48 58)); discriminate).
Qed.

(** C5, at a failing input.  A header with the empty [Name] is written as
    a record whose name slot is 16 spaces, and [Next] reads the name back
    as one space: the trimming loop stops at index 0 without looking at
    the byte there. *)
Theorem empty_name_reads_back_as_space :
  let h := {| Name := ""; Date := time.Unix 0 0; Uid := 0; Gid := 0;
              Mode := 420; Size := 0 |} in
  let w : Writer MemSink := fst (WriteHeader (NewWriter []) h) in
  let r : Reader MemSource := {| r_io := contents (w_io w); r_n := 0; r_p := 0 |} in
  slice (contents (w_io w)) 0 16 = spaces 16 /\
  snd (Next r) = Ok {| Name := " "; Date := time.Unix 0 0; Uid := 0; Gid := 0;
                       Mode := 420; Size := 0 |} /\
  snd (Next r) <> Ok h.
Proof.
  cbv zeta. split; [reflexivity|]. split; [vm_compute; reflexivity|].
  vm_compute. discriminate.
Qed.

(** The parts of the name round trip that hold: a name of 1 to 16 bytes
    that does not end in a space is read back as it was, and spaces at the
    end of a name leave the same record as padding does. *)
Lemma name_round_trip (s : string) :
  name_fits s -> readString (writeString (make 16) s) = s.
Proof.
  intros [Hlen Hlast]. rewrite writeString_field.
  change (length (make 16)) with 16%nat.
  apply readString_field; [lia | exact Hlast].
Qed.

Lemma trailing_spaces_are_padding (s : string) (k : nat) :
  (String.length s + k <= 16)%nat ->
  writeString (make 16) (String.append s (string_of_bytes (spaces k))) =
  writeString (make 16) s.
Proof.
  intros Hfit. rewrite !writeString_field. change (length (make 16)) with 16%nat.
  assert (Hl : String.length (string_of_bytes (spaces k)) = k).
  { rewrite <- bytes_of_string_length, bytes_of_string_of_bytes.
    apply repeat_length. }
  rewrite !field_fits by (rewrite ?string_append_length, ?Hl; lia).
  rewrite bytes_of_string_app, bytes_of_string_of_bytes, string_append_length, Hl.
  rewrite <- app_assoc. f_equal. unfold spaces. rewrite <- repeat_app.
  f_equal. lia.
Qed.

(** ** Round trip of a whole archive *)

Lemma contents_app (w1 w2 : MemSink) : contents (w1 ++ w2) = contents w1 ++ contents w2.
Proof. apply concat_app. Qed.

Lemma write_entries_mem (es : list entry) : forall (w : Writer MemSink),
    Forall (fun e => len (snd e) <= Size (fst e)) es ->
    exists w',
      write_entries w es = (w', None) /\
      contents (w_io w') = contents (w_io w) ++ concat (map entry_bytes es).
Proof.
  induction es as [|[h payload] es IH]; intros w Hes.
  - exists w. split; [reflexivity|]. simpl. now rewrite app_nil_r.
  - inversion Hes as [|e es' Hle Hes']; subst. cbn [fst snd] in Hle.
    cbn [write_entries]. rewrite WriteHeader_mem.
    rewrite Write_mem_accepted by exact Hle. cbn [w_io w_n].
    destruct (IH {| w_io := (w_io w ++ [header_buf h]) ++
                             [if Z.odd (len payload) then payload ++ [newline] else payload];
                    w_n := Size h |} Hes') as (w' & Ew & Ec).
    exists w'. split; [exact Ew|]. rewrite Ec. cbn [w_io map concat].
    rewrite !contents_app. unfold entry_bytes. cbn [fst snd contents concat].
    rewrite !app_nil_r, <- !app_assoc. f_equal. f_equal.
    destruct (Z.odd (len payload)); rewrite <- ?app_assoc; reflexivity.
Qed.







(** Two more ways to lose a header on the way: a numeric field wider than
    its slot is read back cut, and spaces at the end of a name are read
    back as padding. *)
Lemma roundtrip_cuts_wide_uid :
  let h := {| Name := "a"; Date := time.Unix 0 0; Uid := 1234567; Gid := 0;
              Mode := 420; Size := 0 |} in
  roundtrip [(h, [])] 1 =
  Finished [({| Name := "a"; Date := time.Unix 0 0; Uid := 123456; Gid := 0;
                Mode := 420; Size := 0 |}, [])].
Proof. vm_compute. reflexivity. Qed.

Lemma roundtrip_drops_trailing_space :
  let h := {| Name := "a "; Date := time.Unix 0 0; Uid := 0; Gid := 0;
              Mode := 420; Size := 0 |} in
  roundtrip [(h, [])] 1 =
  Finished [({| Name := "a"; Date := time.Unix 0 0; Uid := 0; Gid := 0;
                Mode := 420; Size := 0 |}, [])].
Proof. vm_compute. reflexivity. Qed.




(** * Further properties of the reader and the writer *)

(** ** NewReader *)

(** X1. [NewReader] on an in-memory stream returns a reader exactly when
    the first 8 bytes are the magic bytes; the reader is then bound to the
    stream behind them, with no entry active. *)
Theorem NewReader_accepts_iff_magic (s : MemSource) (r : Reader MemSource) :
  snd (NewReader s) = Ok r <->
  firstn 8 s = bytes_of_string MagicString /\
  r = {| r_io := skipn 8 s; r_n := 0; r_p := 0 |}.
Proof.
  unfold NewReader. cbn [io_ReadFull MemSource_Reader]. unfold mem_ReadFull.
  destruct (Nat.leb_spec 8 (length s)) as [Hlen|Hshort].
  - destruct (list_eq_dec ascii_dec (firstn 8 s) (bytes_of_string MagicString))
      as [Heq|Hne]; cbn [snd].
    + split.
      * intros E. injection E as <-. split; [exact Heq | reflexivity].
      * intros [_ ->]. reflexivity.
    + split; [discriminate|]. intros [Heq _]. contradiction.
  - assert (Hno : firstn 8 s <> bytes_of_string MagicString).
    { intros E. apply (f_equal (@length byte)) in E.
      rewrite length_firstn in E.
      change (length (bytes_of_string MagicString)) with 8%nat in E. lia. }
    destruct s; cbn [snd]; (split; [discriminate|]); intros [Heq _]; contradiction.
Qed.

(** X2. On a stream of fewer than 8 bytes [NewReader] fails with the error
    of the short read, wrapped: [io.EOF] for the empty stream and
    [io.ErrUnexpectedEOF] otherwise; on 8 bytes or more that do not start
    with the magic bytes it fails with the error about the magic bytes. *)
Theorem NewReader_rejects (s : MemSource) :
  firstn 8 s <> bytes_of_string MagicString ->
  snd (NewReader s) =
  Err (match s with
       | [] => Wrapf "cannot read magic byte" EOF
       | _ => if (length s <? 8)%nat
              then Wrapf "cannot read magic byte" ErrUnexpectedEOF
              else Errorf "invalid magic bytes"
       end).
Proof.
  intros Hne. unfold NewReader. cbn [io_ReadFull MemSource_Reader]. unfold mem_ReadFull.
  destruct (Nat.leb_spec 8 (length s)) as [Hlen|Hshort].
  - destruct (list_eq_dec ascii_dec (firstn 8 s) (bytes_of_string MagicString))
      as [Heq|_]; [contradiction|]. cbn [snd].
    destruct s as [|c s]; [simpl in Hlen; lia|].
    destruct (Nat.ltb_spec (length (c :: s)) 8); [lia | reflexivity].
  - destruct s as [|c s]; [reflexivity|]. cbn [snd].
    destruct (Nat.ltb_spec (length (c :: s)) 8); [reflexivity | lia].
Qed.

Lemma NewReader_rejects_witness :
  let s : MemSource := bytes_of_string "!<arc" in
  firstn 8 s <> bytes_of_string MagicString /\
  snd (NewReader s) = Err (Wrapf "cannot read magic byte" ErrUnexpectedEOF).
Proof.
  intros s.
  assert (Hne : firstn 8 s <> bytes_of_string MagicString) by (vm_compute; discriminate).
  split; [exact Hne|]. exact (NewReader_rejects s Hne).
Defined.

(** ** WriteHeader *)

(** X3. [WriteHeader] on an in-memory sink succeeds in every writer state,
    also when the payload of the entry before is not written in full: it
    hands one 60-byte record ending in the terminator to the stream and
    sets the counter to the [Size] of the new header. *)
Theorem WriteHeader_in_any_state (w : Writer MemSink) (h : Header) :
  snd (WriteHeader w h) = None /\
  w_n (fst (WriteHeader w h)) = Size h /\
  exists rec,
    w_io (fst (WriteHeader w h)) = w_io w ++ [rec] /\
    length rec = 60%nat /\
    slice rec 58 60 = [backtick; newline].
Proof.
  rewrite WriteHeader_mem. cbn [fst snd w_io w_n].
  split; [reflexivity|]. split; [reflexivity|].
  exists (header_buf h). split; [reflexivity|]. split; [apply header_buf_length|].
  pose proof (header_buf_slices h) as (_ & _ & _ & _ & _ & _ & Ht).
  rewrite Ht. reflexivity.
Qed.



(** ** Numeric fields *)

Lemma formatBits_length_le (base : Z) (fuel : nat) :
  2 <= base ->
  forall (k : nat) (u : Z) (acc : string),
    (1 <= k)%nat -> 0 <= u < base ^ Z.of_nat k ->
    (String.length (strconv.formatBits fuel u base acc) <= k + String.length acc)%nat.
Proof.
  intros Hb. induction fuel as [|fuel IH]; intros k u acc Hk Hu; [simpl; lia|].
  cbn [strconv.formatBits]. destruct (Z.leb_spec base u) as [Hge|Hlt]; [|simpl; lia].
  destruct k as [|[|k]]; [lia | simpl in Hu; lia |].
  assert (Hdiv : 0 <= u / base < base ^ Z.of_nat (S k)).
  { split; [apply Z.div_pos; lia|].
    apply Z.div_lt_upper_bound; [lia|].
    rewrite (Nat2Z.inj_succ (S k)), Z.pow_succ_r in Hu by lia. lia. }
  pose proof (IH (S k) (u / base) (String (strconv.digit_char (u mod base)) acc)
                ltac:(lia) Hdiv) as Hl.
  simpl in Hl. lia.
Qed.

(** A value of at most [w] digits, or of at most [w - 1] digits and a sign,
    has a rendering of at most [w] bytes. *)
Lemma FormatInt_fits_range (base : Z) (w : nat) (i : Z) :
  2 <= base -> (1 <= w)%nat ->
  - base ^ Z.of_nat (w - 1) < i < base ^ Z.of_nat w ->
  (String.length (strconv.FormatInt i base) <= w)%nat.
Proof.
  intros Hb Hw Hi. unfold strconv.FormatInt.
  destruct (Z.ltb_spec i 0) as [Hneg|Hpos].
  - destruct w as [|[|w]]; [lia | simpl in Hi; lia |].
    replace (S (S w) - 1)%nat with (S w) in Hi by lia.
    destruct Hi as [Hlo _].
    assert (Ha : 0 <= Z.abs i < base ^ Z.of_nat (S w))
      by (rewrite Z.abs_neq by lia; split; [lia|]; revert Hlo;
          generalize (base ^ Z.of_nat (S w)); intros; lia).
    pose proof (formatBits_length_le base 64 Hb (S w) (Z.abs i) EmptyString
                  ltac:(lia) Ha) as Hl.
    cbn [String.length] in Hl |- *. lia.
  - destruct Hi as [_ Hhi].
    assert (Ha : 0 <= Z.abs i < base ^ Z.of_nat w)
      by (rewrite Z.abs_eq by lia; split; [lia | exact Hhi]).
    pose proof (formatBits_length_le base 64 Hb w (Z.abs i) EmptyString Hw Ha) as Hl.
    cbn [String.length] in Hl. lia.
Qed.

(** X5. A decimal field round trip: in a slot of 1 to 12 bytes, [readInt]
    gives back what [writeInt] stored for every value of at most as many
    digits as the slot has bytes, also a negative one when its sign and
    digits fit. *)
Theorem writeInt_readInt (b : bytes) (i : Z) :
  (1 <= length b <= 12)%nat ->
  - 10 ^ Z.of_nat (length b - 1) < i < 10 ^ Z.of_nat (length b) ->
  readInt (writeInt b i) = Ok i.
Proof.
  intros Hw Hi. rewrite writeInt_field.
  apply readInt_field; [lia|].
  apply FormatInt_fits_range; [lia | lia | exact Hi].
Qed.

Lemma writeInt_readInt_witness :
  let b := make 6 in
  (1 <= length b <= 12)%nat /\
  - 10 ^ Z.of_nat (length b - 1) < -99999 < 10 ^ Z.of_nat (length b) /\
  readInt (writeInt b (-99999)) = Ok (-99999).
Proof.
  intros b.
  assert (Hw : (1 <= length b <= 12)%nat) by (vm_compute; lia).
  assert (Hi : - 10 ^ Z.of_nat (length b - 1) < -99999 < 10 ^ Z.of_nat (length b))
    by (split; reflexivity).
  split; [exact Hw|]. split; [exact Hi|].
  exact (writeInt_readInt b (-99999) Hw Hi).
Defined.

(** X6. The same round trip for the octal field of [writeOctal] and
    [readOctal]. *)
Theorem writeOctal_readOctal (b : bytes) (i : Z) :
  (1 <= length b <= 12)%nat ->
  - 8 ^ Z.of_nat (length b - 1) < i < 8 ^ Z.of_nat (length b) ->
  readOctal (writeOctal b i) = Ok i.
Proof.
  intros Hw Hi. rewrite writeOctal_field.
  apply readOctal_field; [lia|].
  apply FormatInt_fits_range; [lia | lia | exact Hi].
Qed.

Lemma writeOctal_readOctal_witness :
  let b := make 8 in
  (1 <= length b <= 12)%nat /\
  - 8 ^ Z.of_nat (length b - 1) < 33188 < 8 ^ Z.of_nat (length b) /\
  readOctal (writeOctal b 33188) = Ok 33188.
Proof.
  intros b.
  assert (Hw : (1 <= length b <= 12)%nat) by (vm_compute; lia).
  assert (Hi : - 8 ^ Z.of_nat (length b - 1) < 33188 < 8 ^ Z.of_nat (length b))
    by (split; reflexivity).
  split; [exact Hw|]. split; [exact Hi|].
  exact (writeOctal_readOctal b 33188 Hw Hi).
Defined.

(** ** Trimming *)

Lemma trim_loop_range (b : bytes) (fuel : nat) : forall (i : Z),
    -1 <= i < len b ->
    (forall j, i < j < len b -> index b j = space) ->
    (Z.min i 0 <= trim_loop fuel b i <= i) /\
    (forall j, trim_loop fuel b i < j < len b -> index b j = space).
Proof.
  induction fuel as [|fuel IH]; intros i Hi Hsp; cbn [trim_loop].
  - split; [lia | exact Hsp].
  - destruct (Z.ltb_spec 0 i) as [Hpos|Hle]; cbn [andb]; [|split; [lia | exact Hsp]].
    destruct (Ascii.eqb_spec (index b i) space) as [Heq|Hne]; [|split; [lia | exact Hsp]].
    destruct (IH (i - 1)) as [Hr Hs]; [lia | |split; [lia | exact Hs]].
    intros j Hj. destruct (Z.eq_dec j i) as [->|Hji]; [exact Heq | apply Hsp; lia].
Qed.

Lemma trim_index_range (b : bytes) :
  (b <> [] -> 0 <= trim_index b) /\ -1 <= trim_index b < len b /\
  (forall j, trim_index b < j < len b -> index b j = space).
Proof.
  unfold trim_index.
  destruct (trim_loop_range b (length b) (len b - 1)) as [Hr Hs].
  - pose proof (len_nonneg b). lia.
  - intros j Hj. lia.
  - split; [|split; [pose proof (len_nonneg b); lia | exact Hs]].
    intros Hne. assert (0 < len b) by (destruct b; [contradiction | unfold len; simpl; lia]).
    lia.
Qed.

Lemma all_spaces (l : bytes) :
  (forall j, (j < length l)%nat -> nth j l zero_byte = space) -> l = spaces (length l).
Proof.
  induction l as [|c l IH]; intros Hl; [reflexivity|].
  change (spaces (length (c :: l))) with (space :: spaces (length l)). f_equal.
  - apply (Hl 0%nat). simpl. lia.
  - apply IH. intros j Hj. apply (Hl (S j)). simpl. lia.
Qed.

Lemma trimmed_split (b : bytes) :
  b = slice b 0 (Z.to_nat (trim_index b + 1)) ++
      spaces (length b - Z.to_nat (trim_index b + 1)).
Proof.
  destruct (trim_index_range b) as (_ & Hr & Hs).
  unfold slice. rewrite Nat.sub_0_r. cbn [skipn].
  set (n := Z.to_nat (trim_index b + 1)).
  rewrite <- (firstn_skipn n b) at 1. f_equal.
  rewrite <- length_skipn. apply all_spaces.
  intros j Hj. rewrite length_skipn in Hj. rewrite nth_skipn.
  specialize (Hs (Z.of_nat (n + j))). unfold index in Hs. rewrite Nat2Z.id in Hs.
  apply Hs. unfold len. lia.
Qed.

(** X7. A numeric slot that holds nothing but spaces, or no byte at all,
    does not parse: [readInt] and [readOctal] return a syntax error. *)
Theorem read_blank_field (w : nat) :
  readInt (spaces w) = Err ErrSyntax /\ readOctal (spaces w) = Err ErrSyntax.
Proof.
  destruct w as [|w]; [split; reflexivity|].
  assert (Hi : trim_index (spaces (S w)) = 0).
  { destruct (trim_index_range (spaces (S w))) as (Hne & Hr & _).
    specialize (Hne ltac:(discriminate)).
    pose proof (trim_index_done (spaces (S w))) as Hd.
    destruct (Z.ltb_spec 0 (trim_index (spaces (S w)))) as [Hpos|]; [|lia].
    unfold index in Hd. rewrite nth_spaces, Ascii.eqb_refl in Hd; [discriminate|].
    assert (Hl : len (spaces (S w)) = Z.of_nat (S w))
      by (unfold len, spaces; now rewrite repeat_length).
    rewrite Hl in Hr. lia. }
  unfold readInt, readOctal. rewrite Hi. split; reflexivity.
Qed.

Lemma firstn_last (l : bytes) : forall (n : nat),
    (n < length l)%nat -> last (firstn (S n) l) space = nth n l zero_byte.
Proof.
  induction l as [|c l IH]; intros n Hn; [simpl in Hn; lia|].
  destruct n as [|n]; [reflexivity|].
  simpl in Hn. specialize (IH n ltac:(lia)).
  change (firstn (S (S n)) (c :: l)) with (c :: firstn (S n) l).
  destruct l as [|c' l]; [simpl in Hn; lia|]. exact IH.
Qed.

(** X8. [readString] takes nothing but spaces off the end of a slot, never
    takes the first byte of a slot, and leaves a space at the end only of a
    result of one byte. *)
Theorem readString_strips_spaces (b : bytes) :
  (exists k, b = bytes_of_string (readString b) ++ spaces k) /\
  (b <> [] -> (1 <= String.length (readString b))%nat) /\
  ((1 < String.length (readString b))%nat ->
   last (bytes_of_string (readString b)) space <> space).
Proof.
  destruct (trim_index_range b) as (Hne & Hr & _).
  assert (Hlen : String.length (readString b) = Z.to_nat (trim_index b + 1)).
  { unfold readString. rewrite <- bytes_of_string_length, bytes_of_string_of_bytes.
    unfold slice. rewrite Nat.sub_0_r. cbn [skipn]. rewrite length_firstn.
    unfold len in Hr. lia. }
  split; [|split].
  - exists (length b - Z.to_nat (trim_index b + 1))%nat.
    unfold readString. rewrite bytes_of_string_of_bytes. apply trimmed_split.
  - intros Hb. specialize (Hne Hb). lia.
  - intros Hlong. rewrite Hlen in Hlong.
    unfold readString. rewrite bytes_of_string_of_bytes.
    unfold slice. rewrite Nat.sub_0_r. cbn [skipn].
    replace (Z.to_nat (trim_index b + 1)) with (S (Z.to_nat (trim_index b))) by lia.
    rewrite firstn_last by (unfold len in Hr; lia).
    pose proof (trim_index_done b) as Hd.
    destruct (Z.ltb_spec 0 (trim_index b)) as [_|]; [|lia]. cbn [andb] in Hd.
    apply Ascii.eqb_neq. exact Hd.
Qed.

(** ** Next and Read on an in-memory stream *)

Lemma mem_Read_nonempty (s : MemSource) (k : nat) :
  s <> [] -> mem_Read s k = (skipn k s, (firstn k s, None)).
Proof. intros Hne. destruct s; [contradiction | reflexivity]. Qed.

(** X9. Reading some of the payload does not change what [Next] does:
    after a [Read] on a buffer of any length, [Next] returns the same
    result and leaves the same reader as [Next] called in its place. *)
Theorem Next_after_Read (r r' : Reader MemSource) (unread rest data : bytes)
        (err : option error) (k : nat) :
  r_io r = unread ++ rest ->
  0 <= r_n r -> 0 <= r_p r ->
  r_n r + r_p r = len unread -> len unread <= max_int64 ->
  Read r k = Some (r', (data, err)) ->
  Next r' = Next r.
Proof.
  intros Hio Hn Hp Hsum Hmax HRead.
  destruct (Z.eq_dec (r_n r) 0) as [Hz|Hnz].
  - rewrite (Read_exhausted r k Hz) in HRead. injection HRead as <- _ _. reflexivity.
  - unfold Read in HRead.
    destruct (Z.eqb_spec (r_n r) 0) as [|_]; [contradiction|].
    set (k' := if r_n r <? Z.of_nat k then r_n r else Z.of_nat k) in HRead.
    assert (Hk' : 0 <= k' <= r_n r)
      by (unfold k'; destruct (Z.ltb_spec (r_n r) (Z.of_nat k)); lia).
    destruct (Z.ltb_spec k' 0) as [|_]; [lia|].
    cbn [io_Read MemSource_Reader] in HRead. rewrite Hio in HRead.
    assert (Hj : (Z.to_nat k' <= length unread)%nat) by (unfold len in *; lia).
    assert (Hne : unread ++ rest <> []).
    { intros E. apply app_eq_nil in E. destruct E as [E _]. rewrite E in Hsum.
      unfold len in Hsum. simpl in Hsum. lia. }
    rewrite (mem_Read_nonempty _ _ Hne) in HRead. injection HRead as <- _ _.
    rewrite (Next_mem_after_skip r unread rest Hio Hsum Hmax).
    apply (Next_mem_after_skip _ (skipn (Z.to_nat k') unread) rest).
    + cbn [r_io]. rewrite skipn_app.
      replace (Z.to_nat k' - length unread)%nat with 0%nat by lia. reflexivity.
    + cbn [r_n r_p]. rewrite firstn_app.
      replace (Z.to_nat k' - length unread)%nat with 0%nat by lia.
      cbn [firstn]. rewrite app_nil_r.
      unfold len in *. rewrite length_firstn, length_skipn.
      rewrite wrap64_id by (unfold is_int64, min_int64; lia). lia.
    + unfold len in *. rewrite length_skipn. lia.
Qed.

Lemma Next_after_Read_witness :
  let unread := bytes_of_string "AAAAA" ++ [newline] in
  let rest := header_buf {| Name := "b"; Date := time.Unix 0 0; Uid := 0; Gid := 0;
                            Mode := 420; Size := 0 |} in
  let r : Reader MemSource := {| r_io := unread ++ rest; r_n := 5; r_p := 1 |} in
  let r' : Reader MemSource :=
    {| r_io := bytes_of_string "AA" ++ [newline] ++ rest; r_n := 2; r_p := 1 |} in
  Read r 3 = Some (r', (bytes_of_string "AAA", None)) /\ Next r' = Next r.
Proof.
  intros unread rest r r'.
  assert (HRead : Read r 3 = Some (r', (bytes_of_string "AAA", None)))
    by (vm_compute; reflexivity).
  split; [exact HRead|].
  refine (Next_after_Read r r' unread rest _ _ 3 eq_refl _ _ eq_refl _ HRead);
    vm_compute; discriminate.
Defined.

(** X10. When the stream ends inside the unread payload or before the pad
    byte, [Next] reports [io.EOF], the same error as at the end of the
    archive, and keeps its counters. *)
Theorem Next_truncated_payload (r : Reader MemSource) :
  len (r_io r) < r_n r + r_p r -> r_n r + r_p r <= max_int64 ->
  Next r = ({| r_io := []; r_n := r_n r; r_p := r_p r |}, Err EOF).
Proof.
  intros Hshort Hmax. unfold Next, skipUnread.
  rewrite wrap64_id
    by (pose proof (len_nonneg (r_io r)); unfold is_int64, min_int64; lia).
  cbn [io_CopyN_Discard MemSource_Reader]. unfold mem_CopyN_Discard.
  pose proof (len_nonneg (r_io r)).
  destruct (Z.leb_spec (r_n r + r_p r) 0) as [|_]; [lia|].
  destruct (Z.leb_spec (r_n r + r_p r) (len (r_io r))) as [|_]; [lia|].
  reflexivity.
Qed.

Lemma Next_truncated_payload_witness :
  let r : Reader MemSource := {| r_io := bytes_of_string "AAA"; r_n := 5; r_p := 1 |} in
  (len (r_io r) < r_n r + r_p r /\ r_n r + r_p r <= max_int64) /\
  Next r = ({| r_io := []; r_n := 5; r_p := 1 |}, Err EOF).
Proof.
  intros r.
  assert (Hshort : len (r_io r) < r_n r + r_p r) by reflexivity.
  assert (Hmax : r_n r + r_p r <= max_int64) by (vm_compute; discriminate).
  split; [split; assumption|]. exact (Next_truncated_payload r Hshort Hmax).
Defined.

(** X11. When the stream ends inside the payload, reading to exhaustion
    ends without an error: it delivers the bytes that are there, and the
    counter keeps the number of bytes that are missing. *)
Theorem read_payload_truncated (k : nat) (fuel : nat) :
  (0 < k)%nat ->
  forall (p : bytes) (r : Reader MemSource) (acc : bytes),
    r_io r = p -> len p < r_n r -> r_n r <= max_int64 -> (length p < fuel)%nat ->
    read_payload fuel r k acc =
    ({| r_io := []; r_n := r_n r - len p; r_p := r_p r |}, Finished (acc ++ p)).
Proof.
  intros Hk. induction fuel as [|fuel IH]; intros p r acc Hio Hn Hmax Hfuel; [lia|].
  pose proof (len_nonneg p) as Hp.
  cbn [read_payload]. unfold Read.
  destruct (Z.eqb_spec (r_n r) 0) as [|_]; [lia|].
  set (k' := if r_n r <? Z.of_nat k then r_n r else Z.of_nat k).
  assert (Hk' : 1 <= k' <= r_n r)
    by (unfold k'; destruct (Z.ltb_spec (r_n r) (Z.of_nat k)); lia).
  destruct (Z.ltb_spec k' 0) as [|_]; [lia|].
  cbn [io_Read MemSource_Reader]. rewrite Hio. unfold mem_Read.
  destruct p as [|c p].
  - unfold len. simpl length. rewrite Z.sub_0_r, app_nil_r.
    rewrite wrap64_id by (unfold is_int64, min_int64; lia). reflexivity.
  - rewrite (IH (skipn (Z.to_nat k') (c :: p)) _ (acc ++ firstn (Z.to_nat k') (c :: p))).
    + cbn [r_n r_p]. rewrite <- app_assoc, firstn_skipn.
      unfold len in *. rewrite length_firstn, length_skipn.
      rewrite wrap64_id by (unfold is_int64, min_int64; lia).
      f_equal. f_equal. lia.
    + reflexivity.
    + cbn [r_n]. unfold len in *. rewrite length_firstn, length_skipn.
      rewrite wrap64_id by (unfold is_int64, min_int64; lia). lia.
    + cbn [r_n]. unfold len in *. rewrite length_firstn.
      rewrite wrap64_id by (unfold is_int64, min_int64; lia). lia.
    + rewrite length_skipn. simpl length in *. lia.
Qed.

Lemma read_payload_truncated_witness :
  let r : Reader MemSource := {| r_io := bytes_of_string "AAA"; r_n := 5; r_p := 1 |} in
  ((0 < 2)%nat /\ len (r_io r) < r_n r /\ r_n r <= max_int64 /\
   (length (r_io r) < 4)%nat) /\
  read_payload 4 r 2 [] =
  ({| r_io := []; r_n := 2; r_p := 1 |}, Finished (bytes_of_string "AAA")).
Proof.
  intros r.
  assert (Hk : (0 < 2)%nat) by lia.
  assert (Hn : len (r_io r) < r_n r) by reflexivity.
  assert (Hmax : r_n r <= max_int64) by (vm_compute; discriminate).
  assert (Hfuel : (length (r_io r) < 4)%nat) by (vm_compute; lia).
  split; [repeat split; assumption|].
  exact (read_payload_truncated 2 4 Hk (r_io r) r [] eq_refl Hn Hmax Hfuel).
Defined.

(** X12. A header whose [Size] is negative is accepted by [Next], and the
    [Read] that follows it on a buffer of any length panics on the slice
    [b[0:r.n]]. *)
Theorem Read_after_negative_Size {Src} `{IoReader Src}
        (r0 r : Reader Src) (h : Header) (k : nat) :
  Next r0 = (r, Ok h) -> Size h < 0 -> Read r k = None.
Proof.
  intros HNext Hneg. destruct (Next_sets_counter r0 r h HNext) as [Hn _].
  unfold Read. rewrite Hn.
  destruct (Z.eqb_spec (Size h) 0) as [|_]; [lia|].
  destruct (Z.ltb_spec (Size h) (Z.of_nat k)) as [_|]; [|lia].
  destruct (Z.ltb_spec (Size h) 0) as [_|]; [reflexivity | lia].
Qed.

Lemma Read_after_negative_Size_witness :
  let h := {| Name := "a"; Date := time.Unix 0 0; Uid := 0; Gid := 0;
              Mode := 420; Size := -5 |} in
  let r0 : Reader MemSource := {| r_io := header_buf h; r_n := 0; r_p := 0 |} in
  let r : Reader MemSource := {| r_io := []; r_n := -5; r_p := -1 |} in
  (Next r0 = (r, Ok h) /\ Size h < 0) /\ Read r 4 = None.
Proof.
  intros h r0 r.
  assert (HNext : Next r0 = (r, Ok h)) by (vm_compute; reflexivity).
  assert (Hneg : Size h < 0) by reflexivity.
  split; [split; assumption|].
  exact (Read_after_negative_Size r0 r h 4 HNext Hneg).
Defined.

(** ** The bytes the writer produces *)

(** X13. Writing the magic bytes and then, per entry, the header and one
    payload no longer than [Size] succeeds, and the stream holds the magic
    bytes followed, per entry, by the 60-byte record, the payload and one
    newline when the payload's length is odd; a payload shorter than
    [Size] is not noticed. *)
Theorem write_archive_layout (es : list entry) :
  Forall (fun e => len (snd e) <= Size (fst e)) es ->
  snd (write_archive ([] : MemSink) es) = None /\
  contents (w_io (fst (write_archive ([] : MemSink) es))) =
    bytes_of_string MagicString ++ concat (map entry_bytes es).
Proof.
  intros Hes. unfold write_archive.
  change (WriteMagicBytes (NewWriter ([] : MemSink)))
    with ({| w_io := [bytes_of_string MagicString]; w_n := 0 |} : Writer MemSink,
          @None error).
  cbv iota beta.
  destruct (write_entries_mem es {| w_io := [bytes_of_string MagicString]; w_n := 0 |} Hes)
    as (w' & Ew & Ec).
  rewrite Ew. cbn [fst snd]. split; [reflexivity|].
  rewrite Ec. cbn [w_io contents concat]. rewrite app_nil_r. reflexivity.
Qed.

Lemma write_archive_layout_witness :
  let h := {| Name := "control.tar"; Date := time.Unix 0 0; Uid := 0; Gid := 0;
              Mode := 420; Size := 5 |} in
  let es : list entry := [(h, bytes_of_string "AAAAA")] in
  Forall (fun e : entry => len (snd e) <= Size (fst e)) es /\
  contents (w_io (fst (write_archive ([] : MemSink) es))) =
    bytes_of_string MagicString ++ header_buf h ++ bytes_of_string "AAAAA" ++ [newline].
Proof.
  intros h es.
  assert (Hes : Forall (fun e : entry => len (snd e) <= Size (fst e)) es)
    by (constructor; [vm_compute; discriminate | constructor]).
  split; [exact Hes|].
  rewrite (proj2 (write_archive_layout es Hes)). reflexivity.
Defined.

Lemma entry_bytes_even (e : entry) : Z.even (len (entry_bytes e)) = true.
Proof.
  unfold entry_bytes. rewrite !len_app.
  replace (len (header_buf (fst e))) with 60
    by (unfold len; now rewrite header_buf_length).
  destruct (Z.odd (len (snd e))) eqn:Hodd.
  - change (len [newline]) with 1.
    rewrite <- Z.negb_odd, !Z.odd_add, Hodd. reflexivity.
  - change (len (@nil byte)) with 0.
    rewrite <- Z.negb_odd, !Z.odd_add, Hodd. reflexivity.
Qed.

(** X14. The stream of an archive written so has an even length whatever
    the payload lengths are, so every header record starts at an even
    offset. *)
Theorem write_archive_aligned (es : list entry) :
  Forall (fun e => len (snd e) <= Size (fst e)) es ->
  Z.even (len (contents (w_io (fst (write_archive ([] : MemSink) es))))) = true.
Proof.
  intros Hes.
  destruct (write_entries_mem es {| w_io := [bytes_of_string MagicString]; w_n := 0 |} Hes)
    as (w' & Ew & Ec).
  unfold write_archive.
  change (WriteMagicBytes (NewWriter ([] : MemSink)))
    with ({| w_io := [bytes_of_string MagicString]; w_n := 0 |} : Writer MemSink,
          @None error).
  cbv iota beta. rewrite Ew. cbn [fst]. rewrite Ec. clear.
  rewrite len_app. rewrite Z.even_add.
  replace (Z.even (len (concat (map entry_bytes es)))) with true; [reflexivity|].
  symmetry. induction es as [|e es IH]; [reflexivity|].
  cbn [map concat]. rewrite len_app, Z.even_add, IH, entry_bytes_even. reflexivity.
Qed.

Lemma write_archive_aligned_witness :
  let h := {| Name := "control.tar"; Date := time.Unix 0 0; Uid := 0; Gid := 0;
              Mode := 420; Size := 5 |} in
  let es : list entry := [(h, bytes_of_string "AAAAA")] in
  Forall (fun e : entry => len (snd e) <= Size (fst e)) es /\
  Z.even (len (contents (w_io (fst (write_archive ([] : MemSink) es))))) = true.
Proof.
  intros h es.
  assert (Hes : Forall (fun e : entry => len (snd e) <= Size (fst e)) es)
    by (constructor; [vm_compute; discriminate | constructor]).
  split; [exact Hes|]. exact (write_archive_aligned es Hes).
Defined.

(** X15. The limit of [Write] is per call: any run of calls, each with a
    buffer no longer than the counter, is accepted whatever the calls add
    up to; each call makes one call of the stream, with its own pad byte
    when its buffer has an odd length, and the counter stays as it was. *)
Theorem write_chunks_accepted (bs : list bytes) : forall (w : Writer MemSink),
    Forall (fun b => len b <= w_n w) bs ->
    write_chunks w bs =
    ({| w_io := w_io w ++
                map (fun b => if Z.odd (len b) then b ++ [newline] else b) bs;
        w_n := w_n w |}, None).
Proof.
  induction bs as [|b bs IH]; intros w Hbs.
  - cbn [write_chunks map]. rewrite app_nil_r. destruct w. reflexivity.
  - inversion Hbs as [|b' bs' Hb Hbs']; subst.
    cbn [write_chunks]. rewrite (Write_mem_accepted w b Hb).
    rewrite IH by exact Hbs'. cbn [w_io w_n map].
    rewrite <- app_assoc. reflexivity.
Qed.

Lemma write_chunks_accepted_witness :
  let w : Writer MemSink := {| w_io := []; w_n := 2 |} in
  let bs := [bytes_of_string "ab"; bytes_of_string "c"; bytes_of_string "de"] in
  Forall (fun b => len b <= w_n w) bs /\
  running_total bs = 5 /\
  write_chunks w bs =
  ({| w_io := [bytes_of_string "ab"; bytes_of_string "c" ++ [newline];
               bytes_of_string "de"];
      w_n := 2 |}, None).
Proof.
  intros w bs.
  assert (Hbs : Forall (fun b => len b <= w_n w) bs)
    by (repeat (constructor; [vm_compute; discriminate|]); constructor).
  split; [exact Hbs|]. split; [reflexivity|].
  exact (write_chunks_accepted bs w Hbs).
Defined.

(** X16. The count an accepted [Write] returns is the count of the
    underlying write, pad byte included: for a buffer of odd length it is
    one more than the length of the buffer. *)
Theorem Write_count_includes_pad (w : Writer MemSink) (b : bytes) :
  len b <= w_n w ->
  fst (snd (Write w b)) = len b + (if Z.odd (len b) then 1 else 0).
Proof.
  intros Hle. rewrite (Write_mem_accepted w b Hle). cbn [fst snd].
  destruct (Z.odd (len b)); [rewrite len_app; reflexivity | lia].
Qed.

Lemma Write_count_includes_pad_witness :
  let w : Writer MemSink := {| w_io := []; w_n := 5 |} in
  let b := bytes_of_string "abc" in
  len b <= w_n w /\ fst (snd (Write w b)) = 4.
Proof.
  intros w b.
  assert (Hle : len b <= w_n w) by (vm_compute; discriminate).
  split; [exact Hle|]. exact (Write_count_includes_pad w b Hle).
Defined.

(** ** What Next returns *)

Lemma digit_val_nonneg (c : byte) (d : Z) : strconv.digit_val c = Some d -> 0 <= d.
Proof.
  unfold strconv.digit_val.
  set (n := Z.of_nat (nat_of_ascii c)).
  destruct (Z.leb_spec 48 n); destruct (Z.leb_spec n 57); cbn [andb];
    try (intros E; injection E as <-; lia);
    (destruct (Z.leb_spec 97 n); destruct (Z.leb_spec n 122); cbn [andb];
     try (intros E; injection E as <-; lia);
     (destruct (Z.leb_spec 65 n); destruct (Z.leb_spec n 90); cbn [andb];
      try (intros E; injection E as <-; lia); discriminate)).
Qed.

Lemma ParseUint_loop_range (base : Z) (cs : bytes) : forall (n r : Z),
    0 <= base -> 0 <= n <= max_uint64 ->
    strconv.ParseUint_loop cs base n = Ok r -> 0 <= r <= max_uint64.
Proof.
  induction cs as [|c cs IH]; intros n r Hb Hn; cbn [strconv.ParseUint_loop].
  - intros E. injection E as <-. exact Hn.
  - destruct (strconv.digit_val c) as [d|] eqn:Ed; [|discriminate].
    pose proof (digit_val_nonneg c d Ed) as Hd.
    destruct (base <=? d); [discriminate|].
    destruct (max_uint64 / base + 1 <=? n); [discriminate|].
    destruct (Z.ltb_spec max_uint64 (n * base + d)) as [|Hle]; [discriminate|].
    apply IH; [exact Hb|]. split; [nia | exact Hle].
Qed.

Lemma ParseInt_range (s : string) (base r : Z) :
  0 <= base -> strconv.ParseInt s base = Ok r -> is_int64 r.
Proof.
  intros Hb. unfold strconv.ParseInt. destruct s as [|c rest]; [discriminate|].
  assert (Hu : forall body un, strconv.ParseUint body base = Ok un -> 0 <= un <= max_uint64).
  { intros body un. unfold strconv.ParseUint. destruct body; [discriminate|].
    apply ParseUint_loop_range; [exact Hb | unfold max_uint64; lia]. }
  unfold is_int64, min_int64, max_int64.
  destruct (Ascii.eqb c "+"); [|destruct (Ascii.eqb c "-")].
  - destruct (strconv.ParseUint rest base) as [un|] eqn:E; [|discriminate].
    specialize (Hu _ _ E). cbn [negb andb].
    destruct (Z.leb_spec (2 ^ 63) un); [discriminate|].
    intros E'. injection E' as <-. lia.
  - destruct (strconv.ParseUint rest base) as [un|] eqn:E; [|discriminate].
    specialize (Hu _ _ E). cbn [negb andb].
    destruct (Z.ltb_spec (2 ^ 63) un); [discriminate|].
    intros E'. injection E' as <-. lia.
  - destruct (strconv.ParseUint (String c rest) base) as [un|] eqn:E; [|discriminate].
    specialize (Hu _ _ E). cbn [negb andb].
    destruct (Z.leb_spec (2 ^ 63) un); [discriminate|].
    intros E'. injection E' as <-. lia.
Qed.

Lemma readString_length (b : bytes) :
  String.length (readString b) = Z.to_nat (trim_index b + 1).
Proof.
  destruct (trim_index_range b) as (_ & Hr & _).
  unfold readString. rewrite <- bytes_of_string_length, bytes_of_string_of_bytes.
  unfold slice. rewrite Nat.sub_0_r. cbn [skipn]. rewrite length_firstn.
  unfold len in Hr. lia.
Qed.

Lemma slice_length (b : bytes) (lo hi : nat) :
  (hi <= length b)%nat -> length (slice b lo hi) = (hi - lo)%nat.
Proof. intros Hhi. unfold slice. rewrite length_firstn, length_skipn. lia. Qed.

(** X17. Every header [Next] returns, on any stream, has a name of 1 to 16
    bytes and numeric fields in the range of [int64]; the reader is left
    with [Size] as its counter and the remainder of [Size] by 2 as its
    pending pad. *)
Theorem Next_header_invariant {Src} `{IoReader Src} (r0 r : Reader Src) (h : Header) :
  Next r0 = (r, Ok h) ->
  (1 <= String.length (Name h) <= 16)%nat /\
  (forall f : numfield, is_int64 (nf_value h f)) /\
  r_n r = Size h /\ r_p r = Z.rem (Size h) 2.
Proof.
  intros HNext. pose proof (Next_sets_counter r0 r h HNext) as [Hn Hp].
  enough ((1 <= String.length (Name h) <= 16)%nat /\
          (forall f : numfield, is_int64 (nf_value h f))) as [H1 H2]
    by (split; [exact H1 | split; [exact H2 | split; assumption]]).
  unfold Next in HNext. destruct (skipUnread r0) as [r1 [e|]]; [discriminate|].
  destruct (io_ReadFull (r_io r1) HeaderByteSize) as [io' [buf [e|]]]; [discriminate|].
  destruct (Nat.eqb_spec (length buf) HeaderByteSize) as [Hlen|]; [|discriminate].
  cbn [negb] in HNext.
  destruct (parse_header buf) as [h'|e] eqn:Hparse; [|discriminate].
  injection HNext as _ <-. clear Hn Hp.
  unfold parse_header in Hparse. destruct (_ && _); [discriminate|].
  destruct (readInt (slice buf 16 28)) as [date|] eqn:Ed; [|discriminate].
  destruct (readInt (slice buf 28 34)) as [uid|] eqn:Eu; [|discriminate].
  destruct (readInt (slice buf 34 40)) as [gid|] eqn:Eg; [|discriminate].
  destruct (readOctal (slice buf 40 48)) as [mode|] eqn:Em; [|discriminate].
  destruct (readInt (slice buf 48 58)) as [fsize|] eqn:Es; [|discriminate].
  injection Hparse as <-. cbn [Name].
  split.
  - rewrite readString_length.
    assert (Hs : length (slice buf 0 16) = 16%nat)
      by (rewrite slice_length; unfold HeaderByteSize in Hlen; lia).
    destruct (trim_index_range (slice buf 0 16)) as (Hne & Hr & _).
    assert (Hne' : slice buf 0 16 <> [])
      by (intros E; rewrite E in Hs; discriminate).
    specialize (Hne Hne'). unfold len in Hr. rewrite Hs in Hr. lia.
  - intros f. unfold readInt, readOctal in *.
    destruct f; cbn [nf_value Date Uid Gid Mode Size time.Time_Unix time.Unix time.sec];
      eapply ParseInt_range; try eassumption; lia.
Qed.

Lemma Next_header_invariant_witness :
  let h := {| Name := "a"; Date := time.Unix 0 0; Uid := 0; Gid := 0;
              Mode := 420; Size := 3 |} in
  let r0 : Reader MemSource := {| r_io := header_buf h; r_n := 0; r_p := 0 |} in
  let r : Reader MemSource := {| r_io := []; r_n := 3; r_p := 1 |} in
  Next r0 = (r, Ok h) /\
  (1 <= String.length (Name h) <= 16)%nat /\
  (forall f : numfield, is_int64 (nf_value h f)) /\
  r_n r = Size h /\ r_p r = Z.rem (Size h) 2.
Proof.
  intros h r0 r.
  assert (HNext : Next r0 = (r, Ok h)) by (vm_compute; reflexivity).
  split; [exact HNext|]. exact (Next_header_invariant r0 r h HNext).
Defined.

(** X18. [Next] does not look at what it discards: two readers with the
    same counters whose streams differ only in the unread payload and pad
    byte give the same result and are left in the same state; the pad
    byte in particular may have any value. *)
Theorem Next_ignores_skipped (n p : Z) (unread1 unread2 rest : bytes) :
  n + p = len unread1 -> len unread1 = len unread2 -> len unread1 <= max_int64 ->
  Next ({| r_io := unread1 ++ rest; r_n := n; r_p := p |} : Reader MemSource) =
  Next ({| r_io := unread2 ++ rest; r_n := n; r_p := p |} : Reader MemSource).
Proof.
  intros Hsum Hlen Hmax.
  rewrite (Next_mem_after_skip {| r_io := unread1 ++ rest; r_n := n; r_p := p |}
             unread1 rest eq_refl Hsum Hmax).
  rewrite (Next_mem_after_skip {| r_io := unread2 ++ rest; r_n := n; r_p := p |}
             unread2 rest eq_refl); [reflexivity | |].
  - cbn [r_n r_p]. lia.
  - lia.
Qed.

Lemma Next_ignores_skipped_witness :
  let rest := header_buf {| Name := "b"; Date := time.Unix 0 0; Uid := 0; Gid := 0;
                            Mode := 420; Size := 0 |} in
  let unread1 := bytes_of_string "AAA" ++ [newline] in
  let unread2 := bytes_of_string "BBBX" in
  (3 + 1 = len unread1 /\ len unread1 = len unread2 /\ len unread1 <= max_int64) /\
  Next ({| r_io := unread1 ++ rest; r_n := 3; r_p := 1 |} : Reader MemSource) =
  Next ({| r_io := unread2 ++ rest; r_n := 3; r_p := 1 |} : Reader MemSource).
Proof.
  intros rest unread1 unread2.
  assert (Hsum : 3 + 1 = len unread1) by reflexivity.
  assert (Hlen : len unread1 = len unread2) by reflexivity.
  assert (Hmax : len unread1 <= max_int64) by (vm_compute; discriminate).
  split; [repeat split; assumption|].
  exact (Next_ignores_skipped 3 1 unread1 unread2 rest Hsum Hlen Hmax).
Defined.
